(** * Simpsons quote quiz: the fuzzy matcher, the scene validator and the
      round/session state machine of [game.js], embedded and verified.

    Conventions of the embedding.
    - A JavaScript string is the list of its UTF-16 code units, each a
      natural number ([N]); [js "..."] writes an ASCII literal.
    - A JavaScript number that the program only uses as an integer (points,
      season and episode numbers, counters, lengths) is a [Z] or a [nat];
      [NaN] is the [None] of an [option].
    - [similarity] is the one genuinely fractional value; it is the exact
      rational [1 - distance / maxLen] (a [Q]).
    - The module-level [state] object is an explicit record threaded through
      the operations; the DOM input fields an operation reads are arguments. *)

From Stdlib Require Import ZArith NArith QArith Lia Lqa DecimalString.
From stdpp Require Import base list strings gmap sets.

Close Scope Q_scope.
Local Open Scope nat_scope.

(** ** JavaScript strings *)

Abbreviation jsstring := (list N).

Definition js (s : string) : jsstring :=
  map Ascii.N_of_ascii (String.list_ascii_of_string s).

(** The code units matched by the regular expression class [\s] and removed
    by [String.prototype.trim]: WhiteSpace and LineTerminator. *)
Definition is_ws (c : N) : bool :=
  ((9 <=? c) && (c <=? 13) || (c =? 32) || (c =? 160) || (c =? 5760)
   || (8192 <=? c) && (c <=? 8202) || (c =? 8232) || (c =? 8233)
   || (c =? 8239) || (c =? 8287) || (c =? 12288) || (c =? 65279))%N.

(** [[a-z]] and [[0-9]]. *)
Definition is_az (c : N) : bool := ((97 <=? c) && (c <=? 122))%N.
Definition is_09 (c : N) : bool := ((48 <=? c) && (c <=? 57))%N.

(** [String.prototype.toLowerCase], one code unit at a time. The table is
    exact on the code units 0..255 (ASCII and Latin-1) and on the two code
    points above them whose lower case contains an ASCII letter: U+0130
    (lower case: i followed by U+0307) and U+212A KELVIN SIGN (lower case:
    k). Every other code unit is carried through; its real lower-case image
    is, like itself, neither an ASCII letter or digit nor white space. *)
Definition lower_unit (c : N) : jsstring :=
  (if (65 <=? c) && (c <=? 90) then [c + 32]
   else if (192 <=? c) && (c <=? 222) && negb (c =? 215) then [c + 32]
   else if c =? 304 then [105; 775]
   else if c =? 8490 then [107]
   else [c])%N.

Definition toLowerCase (s : jsstring) : jsstring := flat_map lower_unit s.

(** [s.replace(/[C]/g, rep)] for a character class [C]. *)
Definition replace_class (p : N → bool) (rep s : jsstring) : jsstring :=
  flat_map (λ c, if p c then rep else [c]) s.

(** [s.replace(/[C]+/g, rep)]: every maximal run of class members becomes one
    [rep] (emitted when the run ends). *)
Fixpoint replace_runs (p : N → bool) (rep s : jsstring) : jsstring :=
  match s with
  | [] => []
  | c :: r =>
      if p c then
        match r with
        | c' :: _ => if p c' then replace_runs p rep r
                     else rep ++ replace_runs p rep r
        | [] => rep
        end
      else c :: replace_runs p rep r
  end.

Fixpoint trimStart (s : jsstring) : jsstring :=
  match s with
  | [] => []
  | c :: r => if is_ws c then trimStart r else s
  end.

Fixpoint trimEnd (s : jsstring) : jsstring :=
  match s with
  | [] => []
  | c :: r =>
      match trimEnd r with
      | [] => if is_ws c then [] else [c]
      | r' => c :: r'
      end
  end.

(** [String.prototype.trim]. *)
Definition trim (s : jsstring) : jsstring := trimEnd (trimStart s).

(** ** Fuzzy matching: [normalizeString] *)

Definition apostrophe : N := 39.
Definition quotation_mark : N := 34.
Definition space : N := 32.

(** The source's two quote classes each hold the straight mark only (twice),
    so the first two replacements rewrite a mark to itself. *)
Definition normalizeString (str : jsstring) : jsstring :=
  trim
    (replace_runs is_ws [space]
       (replace_class (λ c, negb (is_az c || is_09 c || is_ws c)) []
          (replace_class (λ c, (c =? quotation_mark)%N) [quotation_mark]
             (replace_class (λ c, (c =? apostrophe)%N) [apostrophe]
                (toLowerCase str))))).

(** ** Completions *)

(** What a JavaScript operation can end with besides a value. [OutOfTable] is
    a read or a write that leaves the Levenshtein table (JavaScript would go
    on with [undefined] and [NaN], or throw); [TypeError] is a property read
    on [null]; the other two are the failures of scene acquisition. *)
Inductive error := OutOfTable | TypeError | NoValidSceneFound | FetchFailed.

Inductive result (A : Type) : Type :=
  | Ok (a : A)
  | Throw (e : error).
Arguments Ok {A} a.
Arguments Throw {A} e.

Global Instance result_ret : MRet result := λ A a, Ok a.
Global Instance result_bind : MBind result := λ A B f m,
  match m with
  | Ok a => f a
  | Throw e => Throw e
  end.

(** [for (let i = start; ...; i++) body], run for [count] iterations. *)
Fixpoint for_range {St : Type} (start count : nat)
    (body : nat → St → result St) (s : St) : result St :=
  match count with
  | 0 => Ok s
  | S n => s' ← body start s; for_range (S start) n body s'
  end.

(** ** Fuzzy matching: [levenshteinDistance] *)

(** [arr[i] = v] on a JavaScript array: overwrite inside the array, extend
    it at its end (leaving holes when [i] lies beyond the end). *)
Definition array_set {A : Type} (hole : A) (arr : list A) (i : nat) (v : A)
    : list A :=
  if decide (i < length arr) then <[i:=v]> arr
  else arr ++ replicate (i - length arr) hole ++ [v].

Abbreviation table := (list (list nat)).

(** [matrix[i][j]] as a value. *)
Definition cell (matrix : table) (i j : nat) : result nat :=
  match matrix !! i with
  | Some row =>
      match row !! j with
      | Some v => Ok v
      | None => Throw OutOfTable
      end
  | None => Throw OutOfTable
  end.

(** [matrix[i][j] = v]. *)
Definition set_cell (matrix : table) (i j v : nat) : result table :=
  match matrix !! i with
  | Some row => Ok (<[i:=array_set 0 row j v]> matrix)
  | None => Throw OutOfTable
  end.

(** [s.charAt(i)]: a string of one code unit, or the empty string. *)
Definition charAt (s : jsstring) (i : nat) : jsstring :=
  match s !! i with
  | Some c => [c]
  | None => []
  end.

Definition levenshteinDistance (a b : jsstring) : result nat :=
  matrix ← for_range 0 (S (length b))
              (λ i matrix, Ok (array_set [] matrix i [i])) [];
  matrix ← for_range 0 (S (length a))
              (λ j matrix, set_cell matrix 0 j j) matrix;
  matrix ← for_range 1 (length b) (λ i matrix,
              for_range 1 (length a) (λ j matrix,
                if decide (charAt b (i - 1) = charAt a (j - 1)) then
                  diag ← cell matrix (i - 1) (j - 1);
                  set_cell matrix i j diag
                else
                  diag ← cell matrix (i - 1) (j - 1);
                  left ← cell matrix i (j - 1);
                  up ← cell matrix (i - 1) j;
                  set_cell matrix i j
                    ((diag + 1) `min` ((left + 1) `min` (up + 1))))
                matrix) matrix;
  cell matrix (length b) (length a).

(** *** The specification of the distance *)

(** The edit scripts that turn [a] into [b], with their cost: keeping a
    character is free; substituting, deleting and inserting cost 1 each. *)
Inductive edit_script : jsstring → jsstring → nat → Prop :=
  | edit_done : edit_script [] [] 0
  | edit_keep c a b n :
      edit_script a b n → edit_script (c :: a) (c :: b) n
  | edit_substitute c d a b n :
      edit_script a b n → edit_script (c :: a) (d :: b) (S n)
  | edit_delete c a b n :
      edit_script a b n → edit_script (c :: a) b (S n)
  | edit_insert d a b n :
      edit_script a b n → edit_script a (d :: b) (S n).

(** [d] is the Levenshtein distance of [a] and [b]: the least cost of an edit
    script. *)
Definition is_edit_distance (a b : jsstring) (d : nat) : Prop :=
  edit_script a b d ∧ ∀ n, edit_script a b n → d ≤ n.

(** The classic recurrence, as the specification words it: the length of the
    other string along each edge, and the least of substitution (free on
    equal characters), deletion and insertion elsewhere. *)
Fixpoint lev_spec (a b : jsstring) : nat :=
  match a with
  | [] => length b
  | x :: a' =>
      (fix inner (b : jsstring) : nat :=
         match b with
         | [] => length a
         | y :: b' =>
             (lev_spec a' b' + (if decide (x = y) then 0 else 1))
             `min` ((lev_spec a' b + 1) `min` (inner b' + 1))
         end) b
  end.

(** ** Fuzzy matching: [similarity] and [checkAnswer] *)

Definition similarity (a b : jsstring) : result Q :=
  let normA := normalizeString a in
  let normB := normalizeString b in
  if decide (normA = normB) then Ok 1%Q
  else
    let maxLen := length normA `max` length normB in
    if decide (maxLen = 0) then Ok 1%Q
    else
      distance ← levenshteinDistance normA normB;
      Ok (1 - inject_Z (Z.of_nat distance) / inject_Z (Z.of_nat maxLen))%Q.

(** ** Configuration *)

Inductive HintType := image | season | episodeNumber.

Global Instance HintType_eq_dec : EqDecision HintType.
Proof. solve_decision. Defined.

Global Instance HintType_countable : Countable HintType.
Proof.
  refine (inj_countable'
            (λ h, match h with image => 0 | season => 1 | episodeNumber => 2 end)
            (λ n, match n with 0 => image | 1 => season | _ => episodeNumber end)
            _).
  intros []; reflexivity.
Defined.

Record BonusPoints := { bonus_season : Z; bonus_episode : Z }.

Record Config := {
  startingPoints : Z;
  hintCosts : HintType → Z;
  bonusPoints : BonusPoints;
  minQuoteWords : nat;
  similarityThreshold : Q
}.

Definition CONFIG : Config := {|
  startingPoints := 100;
  hintCosts := λ h,
    match h with
    | image => 30
    | season => 20
    | episodeNumber => 40
    end%Z;
  bonusPoints := {| bonus_season := 25; bonus_episode := 50 |};
  minQuoteWords := 5;
  similarityThreshold := 3 # 4
|}.

(** ** Scenes and the game state *)

Record EpisodeInfo := {
  Key : jsstring;
  Season : Z;
  EpisodeNumber : Z;
  Title : jsstring
}.

Record FrameInfo := { FrameEpisode : jsstring; Timestamp : Z }.

Record Subtitle := { Content : jsstring }.

(** A provider response. [Subtitles] may be missing. *)
Record Scene := {
  Episode : EpisodeInfo;
  Frame : FrameInfo;
  Subtitles : option (list Subtitle)
}.

Record SeasonRange := { range_min : Z; range_max : Z }.

Record State := {
  scene : option Scene;
  roundPoints : Z;
  totalPoints : Z;
  roundsPlayed : Z;
  revealed : gset HintType;
  guessed : bool;
  won : bool;
  seasonRange : SeasonRange
}.

Definition initial_state : State := {|
  scene := None;
  roundPoints := startingPoints CONFIG;
  totalPoints := 0;
  roundsPlayed := 0;
  revealed := ∅;
  guessed := false;
  won := false;
  seasonRange := {| range_min := 1; range_max := 9 |}
|}.

(** ** Validation *)

(** [strings.join(sep)]. *)
Fixpoint join (sep : jsstring) (strings : list jsstring) : jsstring :=
  match strings with
  | [] => []
  | [s] => s
  | s :: rest => s ++ sep ++ join sep rest
  end.

Definition getQuoteText (sc : Scene) : jsstring :=
  match Subtitles sc with
  | None | Some [] => []
  | Some subtitles => join [space] (map Content subtitles)
  end.

(** [s.split(/\s+/)]: the pieces between the maximal runs of white space; a
    run at either end of [s] leaves an empty piece there, and the empty
    string splits into one empty piece. [prev_ws] tells that the code unit
    before [s] belongs to a run. *)
Fixpoint split_go (prev_ws : bool) (s : jsstring) : list jsstring :=
  match s with
  | [] => [[]]
  | c :: r =>
      if is_ws c then
        if prev_ws then split_go true r else [] :: split_go true r
      else
        match split_go false r with
        | piece :: pieces => (c :: piece) :: pieces
        | [] => [[c]]
        end
  end.

Definition split_ws (s : jsstring) : list jsstring := split_go false s.

Definition left_bracket : N := 91.
Definition right_bracket : N := 93.

(** [s.match(/\[[^\]]+\]/g)], scanning left to right. [pending] is [Some body]
    after a [[] that has not failed yet, [body] being the code units other
    than []] read since (latest first). A []] right after the [[] fails the
    attempt (the class needs one code unit at least), and the next attempt
    starts on that []], which cannot open a match. The result is empty where
    JavaScript answers [null]. *)
Fixpoint match_brackets (pending : option jsstring) (s : jsstring)
    : list jsstring :=
  match s with
  | [] => []
  | c :: r =>
      match pending with
      | None =>
          if (c =? left_bracket)%N then match_brackets (Some []) r
          else match_brackets None r
      | Some body =>
          if (c =? right_bracket)%N then
            match body with
            | [] => match_brackets None r
            | _ => (left_bracket :: rev body ++ [right_bracket])
                   :: match_brackets None r
            end
          else match_brackets (Some (c :: body)) r
      end
  end.

Definition bracketed (s : jsstring) : list jsstring := match_brackets None s.

(** [s.startsWith(c)] for a one-unit string [c]. *)
Definition startsWith (s : jsstring) (c : N) : bool :=
  match s with
  | c' :: _ => (c' =? c)%N
  | [] => false
  end.

(** The comparison [bracketedLength > quote.length * 0.5] is taken over the
    integers, as [quote.length < 2 * bracketedLength]. *)
Definition isValidQuote (st : State) (sc : Scene) : bool :=
  let season := Season (Episode sc) in
  if ((season <? range_min (seasonRange st))
      || (season >? range_max (seasonRange st)))%Z then false
  else
    let quote := getQuoteText sc in
    if decide (quote = []) then false
    else
      let words := split_ws (trim quote) in
      if length words <? minQuoteWords CONFIG then false
      else if startsWith (trim quote) left_bracket then false
      else
        match bracketed quote with
        | [] => true
        | bracketedContent =>
            let bracketedLength := length (concat bracketedContent) in
            if length quote <? 2 * bracketedLength then false else true
        end.

(** The scene acquisition loop. [responses k] is what the provider answers
    to the call number [k] of [fetchRandomScene] (counted from 0) since
    [getValidScene] was entered. [budget] is [maxAttempts - attempts], so the
    loop condition [attempts < maxAttempts] holds exactly when it is not 0.
    The second component of the result counts the calls made. *)
Definition maxAttempts : nat := 50.

Fixpoint getValidScene_loop (st : State) (responses : nat → result Scene)
    (budget attempts : nat) : result Scene * nat :=
  match budget with
  | 0 => (Throw NoValidSceneFound, attempts)
  | S budget' =>
      match responses attempts with
      | Throw e => (Throw e, S attempts)
      | Ok sc =>
          if isValidQuote st sc then (Ok sc, S attempts)
          else getValidScene_loop st responses budget' (S attempts)
      end
  end.

Definition getValidScene (st : State) (responses : nat → result Scene)
    : result Scene * nat :=
  getValidScene_loop st responses maxAttempts 0.

(** ** [checkAnswer] *)

Record AnswerCheck := {
  correct : bool;
  similarity_score : Q;
  actualTitle : jsstring
}.

Definition checkAnswer (st : State) (guess : jsstring) : result AnswerCheck :=
  match scene st with
  | None => Throw TypeError
  | Some sc =>
      let correctTitle := Title (Episode sc) in
      sim ← similarity guess correctTitle;
      Ok {| correct := Qle_bool (similarityThreshold CONFIG) sim;
            similarity_score := sim;
            actualTitle := correctTitle |}
  end.

(** ** Game logic *)

Definition revealHint (st : State) (hintType : HintType) : State :=
  if bool_decide (hintType ∈ revealed st) || guessed st then st
  else
    {| scene := scene st;
       roundPoints := Z.max 0 (roundPoints st - hintCosts CONFIG hintType);
       totalPoints := totalPoints st;
       roundsPlayed := roundsPlayed st;
       revealed := revealed st ∪ {[hintType]};
       guessed := guessed st;
       won := won st;
       seasonRange := seasonRange st |}.

(** *** [parseInt] with no radix argument *)

(** The value of [c] as a digit of the given radix. *)
Definition digit_value (radix c : N) : option N :=
  let v := (if is_09 c then Some (c - 48)
            else if is_az c then Some (c - 87)
            else if (65 <=? c) && (c <=? 90) then Some (c - 55)
            else None)%N in
  match v with
  | Some d => if (d <? radix)%N then Some d else None
  | None => None
  end.

(** The number written by the longest prefix of [s] made of digits; [acc] is
    [None] until a digit has been read. *)
Fixpoint parse_digits (radix : N) (acc : option N) (s : jsstring)
    : option N :=
  match s with
  | [] => acc
  | c :: r =>
      match digit_value radix c with
      | Some d => parse_digits radix (Some (radix * default 0 acc + d))%N r
      | None => acc
      end
  end.

(** [parseInt(s)]: leading white space is skipped, then a sign, then [0x] or
    [0X] (which selects radix 16), then the digits; [None] is [NaN]. The
    value is the integer written; the source's number is the double nearest
    to it, the same number up to 2^53. *)
Definition parseInt (s : jsstring) : option Z :=
  let s := trimStart s in
  let '(sign, s) :=
    match s with
    | c :: r =>
        if (c =? 45)%N then ((-1)%Z, r)
        else if (c =? 43)%N then (1%Z, r)
        else (1%Z, s)
    | [] => (1%Z, s)
    end in
  let '(radix, s) :=
    match s with
    | c :: x :: r =>
        if ((c =? 48) && ((x =? 120) || (x =? 88)))%N then (16%N, r)
        else (10%N, s)
    | _ => (10%N, s)
    end in
  match parse_digits radix None s with
  | Some n => Some (sign * Z.of_N n)%Z
  | None => None
  end.

(** JavaScript truthiness of a number: neither [NaN] nor zero. *)
Definition truthy (n : option Z) : bool :=
  match n with
  | Some v => negb (v =? 0)%Z
  | None => false
  end.

(** [n || d] for a number [n] and a non-zero default [d]. *)
Definition or_default (n : option Z) (d : Z) : Z :=
  match n with
  | Some v => if (v =? 0)%Z then d else v
  | None => d
  end.

(** [seasonMin] and [seasonMax] are the values of the two settings fields. *)
Definition getSeasonRange (seasonMin seasonMax : jsstring) : SeasonRange :=
  let min := or_default (parseInt seasonMin) 1 in
  let max := or_default (parseInt seasonMax) 9 in
  {| range_min := Z.max 1 (Z.min min max);
     range_max := Z.min 20 (Z.max min max) |}.

(** *** [startNewRound] *)

(** The part of [startNewRound] that runs before it waits for the scene. *)
Definition startNewRound_begin (st : State) (seasonMin seasonMax : jsstring)
    : State :=
  {| scene := scene st;
     roundPoints := roundPoints st;
     totalPoints := totalPoints st;
     roundsPlayed := roundsPlayed st;
     revealed := revealed st;
     guessed := guessed st;
     won := won st;
     seasonRange := getSeasonRange seasonMin seasonMax |}.

(** The part that runs once [getValidScene] has answered with a scene. *)
Definition startNewRound_acquired (st : State) (sc : Scene) : State :=
  {| scene := Some sc;
     roundPoints := startingPoints CONFIG;
     totalPoints := totalPoints st;
     roundsPlayed := roundsPlayed st;
     revealed := ∅;
     guessed := false;
     won := false;
     seasonRange := seasonRange st |}.

(** [startNewRound] with no other handler running while it waits. A failed
    acquisition is caught and leaves the state as it is. *)
Definition startNewRound (st : State) (seasonMin seasonMax : jsstring)
    (responses : nat → result Scene) : State :=
  let st := startNewRound_begin st seasonMin seasonMax in
  match getValidScene st responses with
  | (Ok sc, _) => startNewRound_acquired st sc
  | (Throw _, _) => st
  end.

(** *** [submitGuess] and [showResult] *)

(** The lines pushed on [bonusText], by the template that writes them. *)
Inductive BonusNote :=
  | SeasonCorrect (bonus : Z)
  | SeasonMismatch (guessedSeason actualSeason : Z)
  | EpisodeCorrect (bonus : Z)
  | EpisodeMismatch (guessedEpisode actualEpisode : Z).

(** [a / b] on numbers that hold integers: [None] is the [NaN] or infinity
    that a zero divisor gives. *)
Definition js_div (a b : Z) : option Q :=
  if (b =? 0)%Z then None else Some (inject_Z a / inject_Z b)%Q.

(** What [showResult] writes on the result panel. [sessionAvg] is the
    quotient before [toFixed(1)] formats it. *)
Record ResultPanel := {
  resultCorrect : bool;
  bonusResult : list BonusNote;
  roundScoreResult : Z;
  sessionTotal : Z;
  sessionRounds : Z;
  sessionAvg : option Q
}.

Definition showResult (st : State) (chk : AnswerCheck)
    (bonusText : list BonusNote) : ResultPanel :=
  {| resultCorrect := correct chk;
     bonusResult := bonusText;
     roundScoreResult := roundPoints st;
     sessionTotal := totalPoints st;
     sessionRounds := roundsPlayed st;
     sessionAvg := js_div (totalPoints st) (roundsPlayed st) |}.

(** One of the two [if ... else if ...] blocks on a structured guess: the
    points it adds and the lines it pushes. *)
Definition structured_bonus (guessedValue : option Z) (actual bonus : Z)
    (hit : Z → BonusNote) (miss : Z → Z → BonusNote) : Z * list BonusNote :=
  match guessedValue with
  | Some g =>
      if truthy guessedValue && (g =? actual)%Z then (bonus, [hit bonus])
      else if truthy guessedValue then (0%Z, [miss g actual])
      else (0%Z, [])
  | None => (0%Z, [])
  end.

(** [guessInput], [guessSeason] and [guessEpisode] are the values of the three
    guess fields. The panel is [None] when the handler returns early. *)
Definition submitGuess (st : State) (guessInput guessSeason guessEpisode : jsstring)
    : result (State * option ResultPanel) :=
  if guessed st then Ok (st, None)
  else
    let guess := trim guessInput in
    if decide (guess = []) then Ok (st, None)
    else
      chk ← checkAnswer st guess;
      match scene st with
      | None => Throw TypeError
      | Some sc =>
          let guessedSeason := parseInt guessSeason in
          let guessedEpisode := parseInt guessEpisode in
          let actualSeason := Season (Episode sc) in
          let actualEpisode := EpisodeNumber (Episode sc) in
          let '(seasonPoints, seasonText) :=
            structured_bonus guessedSeason actualSeason
              (bonus_season (bonusPoints CONFIG)) SeasonCorrect SeasonMismatch in
          let '(episodePoints, episodeText) :=
            structured_bonus guessedEpisode actualEpisode
              (bonus_episode (bonusPoints CONFIG)) EpisodeCorrect EpisodeMismatch in
          let bonus := (0 + seasonPoints + episodePoints)%Z in
          let bonusText := seasonText ++ episodeText in
          let points := if correct chk then roundPoints st else 0%Z in
          let points := (points + bonus)%Z in
          let st' :=
            {| scene := scene st;
               roundPoints := points;
               totalPoints := (totalPoints st + points)%Z;
               roundsPlayed := (roundsPlayed st + 1)%Z;
               revealed := revealed st;
               guessed := true;
               won := correct chk;
               seasonRange := seasonRange st |} in
          Ok (st', Some (showResult st' chk bonusText))
      end.

(** ** Executions *)

(** What the event loop can run, one handler (or one resumed part of
    [startNewRound]) at a time. The parts of [startNewRound] are separate
    events, so that clicks may fall between them. *)
Inductive Event :=
  | RoundRequested (seasonMin seasonMax : jsstring)
  | SceneAcquired (sc : Scene)
  | AcquisitionFailed
  | HintClicked (hintType : HintType)
  | GuessSubmitted (guessInput guessSeason guessEpisode : jsstring).

(** One event: the next state and the result panel it shows, if any. A handler
    that throws leaves the state as the statements before the throw made it
    (here: untouched) and shows nothing. *)
Definition step (st : State) (ev : Event) : State * option ResultPanel :=
  match ev with
  | RoundRequested seasonMin seasonMax =>
      (startNewRound_begin st seasonMin seasonMax, None)
  | SceneAcquired sc => (startNewRound_acquired st sc, None)
  | AcquisitionFailed => (st, None)
  | HintClicked hintType => (revealHint st hintType, None)
  | GuessSubmitted guessInput guessSeason guessEpisode =>
      match submitGuess st guessInput guessSeason guessEpisode with
      | Ok r => r
      | Throw _ => (st, None)
      end
  end.

(** A run from [st]: the final state and the panels shown, in order. *)
Fixpoint run (st : State) (events : list Event) : State * list ResultPanel :=
  match events with
  | [] => (st, [])
  | ev :: rest =>
      let '(st', shown) := step st ev in
      let '(final, panels) := run st' rest in
      (final, from_option (λ p, [p]) [] shown ++ panels)
  end.

(** ** Vocabulary of the statements *)

(** The number of white-space separated words of [s]: its maximal runs of
    code units that are not white space. [prev_ws] tells that the code unit
    before [s] does not belong to a word. *)
Fixpoint count_words (prev_ws : bool) (s : jsstring) : nat :=
  match s with
  | [] => 0
  | c :: r =>
      if is_ws c then count_words true r
      else (if prev_ws then 1 else 0) + count_words false r
  end.

Definition word_count (s : jsstring) : nat := count_words true s.

(** The code units of [s] that lie inside its bracketed spans. *)
Definition bracketed_length (s : jsstring) : nat :=
  length (concat (bracketed s)).

(** A lower-case letter, a digit or the space character. *)
Definition normal_unit (c : N) : bool :=
  is_az c || is_09 c || (c =? space)%N.

(** No two white-space code units in a row. *)
Fixpoint single_spaced (s : jsstring) : Prop :=
  match s with
  | [] => True
  | c :: r =>
      (is_ws c = true →
       match r with
       | c' :: _ => is_ws c' = false
       | [] => True
       end)
      ∧ single_spaced r
  end.

(** Empty, or starting with a code unit that is not white space. *)
Definition starts_clean (s : jsstring) : Prop :=
  match s with
  | c :: _ => is_ws c = false
  | [] => True
  end.

(** The replacements before the collapse, as one map over the code units. *)
Definition strip_lower (s : jsstring) : jsstring :=
  replace_class (λ c, negb (is_az c || is_09 c || is_ws c)) []
    (replace_class (λ c, (c =? quotation_mark)%N) [quotation_mark]
       (replace_class (λ c, (c =? apostrophe)%N) [apostrophe]
          (toLowerCase s))).

(** A structured guess counts as supplied when the field parses to a number
    that JavaScript takes for true: not [NaN] and not zero. *)
Definition supplied (field : jsstring) : bool := truthy (parseInt field).

(** The supplied guess equals the scene's value. *)
Definition guess_matches (field : jsstring) (actual : Z) : bool :=
  supplied field && bool_decide (parseInt field = Some actual).

(** The distance between the first [j] characters of [a] and the first [i]
    characters of [b]: what the cell [matrix[i][j]] is to hold. *)
Definition prefix_distance (a b : jsstring) (i j : nat) : nat :=
  lev_spec (rev (take j a)) (rev (take i b)).

(** The first [width] cells of row [i]. *)
Definition table_row (a b : jsstring) (i width : nat) : list nat :=
  prefix_distance a b i <$> seq 0 width.

(** Row [r] of the table while row [i] is being filled and holds [j] cells:
    the rows above [i] are complete, the rows below hold their first cell. *)
Definition row_state (a b : jsstring) (i j r : nat) : list nat :=
  if decide (r < i) then table_row a b r (S (length a))
  else if decide (r = i) then table_row a b i j
  else [r].

Definition table_state (a b : jsstring) (i j : nat) : table :=
  row_state a b i j <$> seq 0 (S (length b)).

(** Whether [s] ends inside a run of white space; [prev_ws] answers for the
    empty string. *)
Fixpoint ends_ws (prev_ws : bool) (s : jsstring) : bool :=
  match s with
  | [] => prev_ws
  | c :: r => ends_ws (is_ws c) r
  end.

(** The scene's season lies inside the configured range. *)
Definition season_in_range (st : State) (sc : Scene) : Prop :=
  (range_min (seasonRange st) ≤ Season (Episode sc)
   ∧ Season (Episode sc) ≤ range_max (seasonRange st))%Z.

(** The provider answers call [k] with a scene that the validator rejects. *)
Definition rejected_at (st : State) (responses : nat → result Scene)
    (k : nat) : Prop :=
  ∃ sc, responses k = Ok sc ∧ isValidQuote st sc = false.

(** The field is empty or not numeric ([parseInt] answers [NaN]), or it
    parses to zero. *)
Definition not_supplied (field : jsstring) : Prop :=
  parseInt field = None ∨ parseInt field = Some 0%Z.

Definition is_season_note (note : BonusNote) : bool :=
  match note with
  | SeasonCorrect _ | SeasonMismatch _ _ => true
  | _ => false
  end.

Definition is_episode_note (note : BonusNote) : bool :=
  match note with
  | EpisodeCorrect _ | EpisodeMismatch _ _ => true
  | _ => false
  end.

(** The points a round is worth once the title has been judged. *)
Definition base_points (chk : AnswerCheck) (st : State) : Z :=
  if correct chk then roundPoints st else 0%Z.

(** What a displayed result panel says about the session average. *)
Definition average_defined (panel : ResultPanel) : Prop :=
  (1 ≤ sessionRounds panel)%Z
  ∧ sessionAvg panel
    = Some (inject_Z (sessionTotal panel) / inject_Z (sessionRounds panel))%Q.

(** The straight apostrophe and the curly ones (U+2018, U+2019). *)
Definition is_apostrophe (c : N) : bool :=
  ((c =? apostrophe) || (c =? 8216) || (c =? 8217))%N.

(** The straight quotation mark and the curly ones (U+201C, U+201D). *)
Definition is_quotation_mark (c : N) : bool :=
  ((c =? quotation_mark) || (c =? 8220) || (c =? 8221))%N.

(** The normalizer as the specification words it: the curly marks stand in
    the two quote classes beside the straight ones. *)
Definition normalize_spec (str : jsstring) : jsstring :=
  trim
    (replace_runs is_ws [space]
       (replace_class (λ c, negb (is_az c || is_09 c || is_ws c)) []
          (replace_class is_quotation_mark [quotation_mark]
             (replace_class is_apostrophe [apostrophe]
                (toLowerCase str))))).

(** Boolean tests on code units, turned into arithmetic. *)
Ltac units :=
  unfold normal_unit, is_ws, is_az, is_09, space, apostrophe,
    quotation_mark, left_bracket, right_bracket in *;
  repeat progress
    (rewrite ?orb_true_iff, ?andb_true_iff, ?negb_true_iff, ?orb_false_iff,
       ?andb_false_iff, ?negb_false_iff, ?N.leb_le, ?N.eqb_eq, ?N.leb_gt,
       ?N.eqb_neq in *);
  try lia.

(** ** Sample data *)

(** A scene of the given season and episode number with one subtitle. *)
Definition sample_scene (seasonNumber number : Z) (title quote : string)
    : Scene :=
  {| Episode := {| Key := js "S01E11"; Season := seasonNumber;
                   EpisodeNumber := number; Title := js title |};
     Frame := {| FrameEpisode := js "S01E11"; Timestamp := 335897 |};
     Subtitles := Some [ {| Content := js quote |} ] |}.

(** A state in the middle of a round on [sc]. *)
Definition playing (sc : Scene) (points : Z) : State :=
  {| scene := Some sc;
     roundPoints := points;
     totalPoints := 0;
     roundsPlayed := 0;
     revealed := ∅;
     guessed := false;
     won := false;
     seasonRange := {| range_min := 1; range_max := 9 |} |}.

Definition grunting : Scene :=
  sample_scene 1 1 "Simpsons Roasting on an Open Fire" "[GRUNTING]".

Definition smoke : Scene :=
  sample_scene 1 11 "The Crepes of Wrath"
    "I didn't know you could smoke four at once".

(** A provider whose first two answers are rejected and third is accepted,
    and one whose answers are all rejected. *)
Definition third_time_lucky (k : nat) : result Scene :=
  if k <? 2 then Ok grunting else Ok smoke.

Definition always_grunting (k : nat) : result Scene := Ok grunting.

(** ** Autocomplete *)

(** An entry of the episode list loaded from [episodes.json]. *)
Record EpisodeEntry := { ep_season : Z; ep_title : jsstring }.

(** [ep.season >= range.min && ep.season <= range.max]. *)
Definition in_season_range (range : SeasonRange) (ep : EpisodeEntry) : Prop :=
  (range_min range ≤ ep_season ep ∧ ep_season ep ≤ range_max range)%Z.

Global Instance in_season_range_dec range ep :
  Decision (in_season_range range ep).
Proof. unfold in_season_range. apply _. Defined.

(** [episodes] is the loaded list; the two fields are read by
    [getSeasonRange]. *)
Definition getFilteredEpisodes (episodes : list EpisodeEntry)
    (seasonMin seasonMax : jsstring) : list EpisodeEntry :=
  let range := getSeasonRange seasonMin seasonMax in
  filter (in_season_range range) episodes.

(** [s.startsWith(prefix)]. *)
Fixpoint has_prefix (s prefix : jsstring) : bool :=
  match prefix, s with
  | [], _ => true
  | p :: prefix', c :: s' => (c =? p)%N && has_prefix s' prefix'
  | _ :: _, [] => false
  end.

(** [s.includes(search)]: [search] occurs somewhere in [s]. *)
Fixpoint includes (s search : jsstring) : bool :=
  has_prefix s search
  || match s with
     | [] => false
     | _ :: s' => includes s' search
     end.

(** The handler compares what [String.prototype.toLowerCase] makes of the
    typed text and of the titles, which may hold any character. The table
    [toLowerCase] above is the built-in on code units up to 255 only, so the
    built-in enters the handler's model as the argument [lower]: the model is
    the handler when [lower] is the built-in, and what is proved of it is
    proved for every [lower]. *)

(** [ep.title.toLowerCase().includes(value)]. *)
Definition title_matches (lower : jsstring → jsstring) (value : jsstring)
    (ep : EpisodeEntry) : Prop :=
  includes (lower (ep_title ep)) value = true.

Global Instance title_matches_dec lower value ep :
  Decision (title_matches lower value ep).
Proof. unfold title_matches. apply _. Defined.

(** The [input] handler of the guess field, up to the list it hands to the
    markup: [None] when it hides the list and leaves its items as they
    were, [Some matches] when it fills the list with [matches] and shows
    it. *)
Definition autocomplete_input (lower : jsstring → jsstring)
    (episodes : list EpisodeEntry)
    (seasonMin seasonMax guessInput : jsstring) : option (list EpisodeEntry) :=
  let value := trim (lower guessInput) in
  if length value <? 1 then None
  else
    let filteredEpisodes := getFilteredEpisodes episodes seasonMin seasonMax in
    let matches :=
      take 8 (filter (title_matches lower value) filteredEpisodes) in
    match matches with
    | [] => None
    | _ => Some matches
    end.

(** ** Rendering *)

(** The text of a number that holds an integer (below 10^21 in size): its
    decimal digits, after a minus sign when it is negative. *)
Definition number_text (n : Z) : jsstring :=
  js (NilZero.string_of_int (Z.to_int n)).

Definition getImageUrl (sc : Scene) : jsstring :=
  js "https://frinkiac.com/img/" ++ FrameEpisode (Frame sc) ++ js "/"
  ++ number_text (Timestamp (Frame sc)) ++ js ".jpg".

(** The parts of the page that [render] writes: the text of the three
    statistics and of the quote, and for each hint whether its container is
    displayed, what it holds and whether its button is disabled. *)
Record Page := {
  totalScore : jsstring;
  roundScore : jsstring;
  roundsPlayedText : jsstring;
  quoteText : jsstring;
  revealedPanelShown : bool;
  imageContainerShown : bool;
  sceneImageSrc : jsstring;
  revealImageDisabled : bool;
  seasonHintShown : bool;
  seasonValue : jsstring;
  revealSeasonDisabled : bool;
  episodeHintShown : bool;
  episodeValue : jsstring;
  revealEpisodeDisabled : bool
}.

(** [render]: the statistics first; without a scene nothing else; otherwise
    the quote and, hint by hint, the container, its content (written only
    when the hint is revealed) and the button, all three buttons being
    disabled at the end when the round is guessed. *)
Definition render (st : State) (page : Page) : Page :=
  match scene st with
  | None =>
      {| totalScore := number_text (totalPoints st);
         roundScore := number_text (roundPoints st);
         roundsPlayedText := number_text (roundsPlayed st);
         quoteText := quoteText page;
         revealedPanelShown := revealedPanelShown page;
         imageContainerShown := imageContainerShown page;
         sceneImageSrc := sceneImageSrc page;
         revealImageDisabled := revealImageDisabled page;
         seasonHintShown := seasonHintShown page;
         seasonValue := seasonValue page;
         revealSeasonDisabled := revealSeasonDisabled page;
         episodeHintShown := episodeHintShown page;
         episodeValue := episodeValue page;
         revealEpisodeDisabled := revealEpisodeDisabled page |}
  | Some sc =>
      let has := λ hintType, bool_decide (hintType ∈ revealed st) in
      {| totalScore := number_text (totalPoints st);
         roundScore := number_text (roundPoints st);
         roundsPlayedText := number_text (roundsPlayed st);
         quoteText := getQuoteText sc;
         revealedPanelShown := 0 <? size (revealed st);
         imageContainerShown := has image;
         sceneImageSrc :=
           if has image then getImageUrl sc else sceneImageSrc page;
         revealImageDisabled := if guessed st then true else has image;
         seasonHintShown := has season;
         seasonValue :=
           if has season then number_text (Season (Episode sc))
           else seasonValue page;
         revealSeasonDisabled := if guessed st then true else has season;
         episodeHintShown := has episodeNumber;
         episodeValue :=
           if has episodeNumber then number_text (EpisodeNumber (Episode sc))
           else episodeValue page;
         revealEpisodeDisabled :=
           if guessed st then true else has episodeNumber |}
  end.

(** The container, the content and the button of a hint on the page, and
    what the scene holds for the hint. *)
Definition hint_shown (page : Page) (h : HintType) : bool :=
  match h with
  | image => imageContainerShown page
  | season => seasonHintShown page
  | episodeNumber => episodeHintShown page
  end.

Definition hint_content (page : Page) (h : HintType) : jsstring :=
  match h with
  | image => sceneImageSrc page
  | season => seasonValue page
  | episodeNumber => episodeValue page
  end.

Definition hint_disabled (page : Page) (h : HintType) : bool :=
  match h with
  | image => revealImageDisabled page
  | season => revealSeasonDisabled page
  | episodeNumber => revealEpisodeDisabled page
  end.

Definition hint_of_scene (sc : Scene) (h : HintType) : jsstring :=
  match h with
  | image => getImageUrl sc
  | season => number_text (Season (Episode sc))
  | episodeNumber => number_text (EpisodeNumber (Episode sc))
  end.

(** A page before anything is rendered. *)
Definition blank_page : Page :=
  {| totalScore := js "0"; roundScore := js "100"; roundsPlayedText := js "0";
     quoteText := js "Loading...";
     revealedPanelShown := false;
     imageContainerShown := false; sceneImageSrc := [];
     revealImageDisabled := false;
     seasonHintShown := false; seasonValue := [];
     revealSeasonDisabled := false;
     episodeHintShown := false; episodeValue := [];
     revealEpisodeDisabled := false |}.

(** ** Vocabulary of the further properties *)

(** An ASCII capital letter. *)
Definition is_AZ (c : N) : bool := ((65 <=? c) && (c <=? 90))%N.

(** An ASCII code unit that is neither a letter nor a digit nor white space:
    punctuation, a symbol or a control character. *)
Definition is_ascii_other (c : N) : bool :=
  (c <? 128)%N && negb (is_AZ c || is_az c || is_09 c || is_ws c).

(** A bracketed span as the pattern [\[[^\]]+\]] describes it: a left
    bracket, one code unit or more none of which is a right bracket, and a
    right bracket. *)
Definition is_span (m : jsstring) : Prop :=
  ∃ body, m = left_bracket :: body ++ [right_bracket]
          ∧ body ≠ [] ∧ right_bracket ∉ body.

(** The subtitles of a scene, none when the field is missing. *)
Definition subtitle_texts (sc : Scene) : list jsstring :=
  map Content (default [] (Subtitles sc)).

(** What a list of hints costs together. *)
Definition hint_cost_total (hints : list HintType) : Z :=
  foldr (λ h total, hintCosts CONFIG h + total)%Z 0%Z hints.

(** The event that puts a new scene in place. *)
Definition is_scene_acquired (ev : Event) : bool :=
  match ev with
  | SceneAcquired _ => true
  | _ => false
  end.

(** The round scores shown on a list of result panels, added up. *)
Definition sum_scores (panels : list ResultPanel) : Z :=
  foldr (λ p total, roundScoreResult p + total)%Z 0%Z panels.

(** The most a round can be worth: the starting points and both bonuses. *)
Definition max_round_points : Z :=
  startingPoints CONFIG + bonus_season (bonusPoints CONFIG)
  + bonus_episode (bonusPoints CONFIG).

(** The bounds that every state of an execution keeps. *)
Definition points_in_bounds (st : State) : Prop :=
  (0 ≤ roundPoints st ≤ max_round_points
   ∧ (guessed st = false → roundPoints st ≤ startingPoints CONFIG)
   ∧ 0 ≤ totalPoints st ∧ 0 ≤ roundsPlayed st)%Z.

(** [search] occurs in [s]. *)
Definition occurs_in (search s : jsstring) : Prop :=
  ∃ before after, s = before ++ search ++ after.

(** A small episode list. *)
Definition sample_episodes : list EpisodeEntry :=
  [ {| ep_season := 1; ep_title := js "Bart the Genius" |};
    {| ep_season := 1; ep_title := js "The Crepes of Wrath" |};
    {| ep_season := 2; ep_title := js "Bart Gets an F" |};
    {| ep_season := 12; ep_title := js "Bart to the Future" |} ].

(** A lowercasing function that knows one letter beyond the table: U+0160,
    capital S with caron, whose lower case is U+0161. *)
Definition lower_caron (s : jsstring) : jsstring :=
  flat_map (λ c, if (c =? 352)%N then [353%N] else lower_unit c) s.

(* ================================================================= *)
(** * Properties *)

(** ** Examples *)

Example normalize_title :
  normalizeString (js "  The  Crepes of Wrath! ") = js "the crepes of wrath".
Proof. vm_compute. reflexivity. Qed.

(** A curly apostrophe (U+2019) is not rewritten by the first replacement; the
    third one deletes it, as it deletes the straight one. *)
Example normalize_curly :
  normalizeString (js "Bart" ++ [8217%N] ++ js "s Dog") = js "barts dog"
  ∧ normalizeString (js "Bart's Dog") = js "barts dog".
Proof. vm_compute. auto. Qed.

Example levenshtein_kitten :
  levenshteinDistance (js "kitten") (js "sitting") = Ok 3.
Proof. vm_compute. reflexivity. Qed.

Example similarity_title :
  similarity (js "the crepes of wrath") (js "The Crepes of Wrath") = Ok 1%Q.
Proof. vm_compute. reflexivity. Qed.

Example bracketed_spans :
  bracketed (js "a [b] c [] [[x] y [open") = [js "[b]"; js "[[x]"].
Proof. vm_compute. reflexivity. Qed.

Example parseInt_samples :
  parseInt (js "  -12abc") = Some (-12)%Z ∧ parseInt (js "0x1F") = Some 31%Z
  ∧ parseInt (js "") = None ∧ parseInt (js "abc") = None
  ∧ parseInt (js "0") = Some 0%Z.
Proof. vm_compute. auto. Qed.

(** ** The text normalizer *)

Lemma normal_unit_lower c : normal_unit c = true → lower_unit c = [c].
Proof.
  intros H. unfold lower_unit.
  destruct (N.leb_spec 65 c), (N.leb_spec c 90); simpl; [units | | |];
    (destruct (N.leb_spec 192 c), (N.leb_spec c 222); simpl; [units | | |]);
    (destruct (N.eqb_spec c 304); [units |]);
    (destruct (N.eqb_spec c 8490); [units | done]).
Qed.

Lemma normal_unit_ws c : normal_unit c = true → is_ws c = true → c = space.
Proof. intros H1 H2. units. Qed.

Lemma normal_unit_kept c :
  normal_unit c = true → negb (is_az c || is_09 c || is_ws c) = false.
Proof. intros H. units. Qed.

Lemma toLowerCase_normal s :
  Forall (λ c, normal_unit c = true) s → toLowerCase s = s.
Proof.
  induction 1 as [|c s Hc _ IH]; [done|].
  unfold toLowerCase in *. simpl. by rewrite (normal_unit_lower c Hc), IH.
Qed.

Lemma replace_class_self k s :
  replace_class (λ c, (c =? k)%N) [k] s = s.
Proof.
  induction s as [|c s IH]; [done|].
  unfold replace_class in *. simpl. rewrite IH.
  by destruct (N.eqb_spec c k) as [->|].
Qed.

Lemma strip_normal s :
  Forall (λ c, normal_unit c = true) s →
  replace_class (λ c, negb (is_az c || is_09 c || is_ws c)) [] s = s.
Proof.
  induction 1 as [|c s Hc _ IH]; [done|].
  unfold replace_class in *. simpl.
  by rewrite (normal_unit_kept c Hc), IH.
Qed.

Lemma strip_units s :
  Forall (λ c, (is_az c || is_09 c || is_ws c) = true)
    (replace_class (λ c, negb (is_az c || is_09 c || is_ws c)) [] s).
Proof.
  induction s as [|c s IH]; [by constructor|].
  unfold replace_class in *. simpl.
  destruct (is_az c || is_09 c || is_ws c) eqn:E; simpl; [|done].
  by constructor.
Qed.

Lemma replace_runs_cons_other p rep c s :
  p c = false → replace_runs p rep (c :: s) = c :: replace_runs p rep s.
Proof. intros H. simpl. by rewrite H. Qed.

Lemma collapse_normal s :
  Forall (λ c, (is_az c || is_09 c || is_ws c) = true) s →
  Forall (λ c, normal_unit c = true) (replace_runs is_ws [space] s).
Proof.
  induction 1 as [|c s Hc _ IH]; [by constructor|].
  destruct (is_ws c) eqn:E.
  - simpl. rewrite E. destruct s as [|c' s]; [by repeat constructor|].
    destruct (is_ws c'); [done|]. by constructor.
  - rewrite replace_runs_cons_other by done. constructor; [|done].
    unfold normal_unit. rewrite orb_false_r in Hc. by rewrite Hc.
Qed.

Lemma collapse_single_spaced s : single_spaced (replace_runs is_ws [space] s).
Proof.
  induction s as [|c s IH]; [done|].
  destruct (is_ws c) eqn:E.
  - simpl replace_runs. rewrite E. destruct s as [|c' s]; [done|].
    destruct (is_ws c') eqn:E'; [done|].
    rewrite replace_runs_cons_other in * by done.
    simpl. split; [done|]. apply IH.
  - rewrite replace_runs_cons_other by done. simpl. split; [congruence|done].
Qed.

Lemma collapse_fixed s :
  Forall (λ c, normal_unit c = true) s → single_spaced s →
  replace_runs is_ws [space] s = s.
Proof.
  induction 1 as [|c s Hc _ IH]; [done|]. intros [Hws Hs].
  destruct (is_ws c) eqn:E.
  - simpl. rewrite E. rewrite (normal_unit_ws c Hc E).
    destruct s as [|c' s]; [done|].
    rewrite (Hws eq_refl). simpl app. f_equal. by apply IH.
  - rewrite replace_runs_cons_other by done. f_equal. by apply IH.
Qed.

(** *** Trimming *)

Lemma trimStart_clean s : starts_clean (trimStart s).
Proof.
  induction s as [|c s IH]; [done|]. simpl.
  by destruct (is_ws c) eqn:E.
Qed.

Lemma trimStart_fixed s : starts_clean s → trimStart s = s.
Proof. destruct s as [|c s]; [done|]. simpl. by intros ->. Qed.

Lemma trimEnd_head s c t : trimEnd s = c :: t → ∃ t', s = c :: t'.
Proof.
  destruct s as [|c' s]; [done|]. simpl.
  destruct (trimEnd s); [destruct (is_ws c')|]; intros [= <- <-]; eauto.
Qed.

Lemma trimEnd_clean s : starts_clean s → starts_clean (trimEnd s).
Proof.
  intros H. destruct (trimEnd s) as [|c t] eqn:E; [done|].
  apply trimEnd_head in E as [t' ->]. done.
Qed.

Lemma trimEnd_idemp s : trimEnd (trimEnd s) = trimEnd s.
Proof.
  induction s as [|c s IH]; [done|]. simpl.
  destruct (trimEnd s) as [|x t] eqn:E.
  - destruct (is_ws c) eqn:Ec; [done|]. simpl. by rewrite Ec.
  - change (trimEnd (c :: x :: t)) with
      (match trimEnd (x :: t) with
       | [] => if is_ws c then [] else [c]
       | r' => c :: r'
       end).
    by rewrite IH.
Qed.

Lemma trim_idemp s : trim (trim s) = trim s.
Proof.
  unfold trim.
  rewrite (trimStart_fixed (trimEnd (trimStart s)))
    by apply trimEnd_clean, trimStart_clean.
  apply trimEnd_idemp.
Qed.

Lemma trimStart_Forall (P : N → Prop) s : Forall P s → Forall P (trimStart s).
Proof.
  induction 1 as [|c s Hc Hs IH]; [done|]. simpl.
  destruct (is_ws c); [done|by constructor].
Qed.

Lemma trimEnd_Forall (P : N → Prop) s : Forall P s → Forall P (trimEnd s).
Proof.
  induction 1 as [|c s Hc Hs IH]; [done|]. simpl.
  destruct (trimEnd s);
    [destruct (is_ws c); repeat constructor; done | by constructor].
Qed.

Lemma trimStart_single_spaced s : single_spaced s → single_spaced (trimStart s).
Proof.
  induction s as [|c s IH]; [done|]. intros [H1 H2]. simpl.
  destruct (is_ws c) eqn:E; [by apply IH|]. simpl. by rewrite E.
Qed.

Lemma trimEnd_single_spaced s : single_spaced s → single_spaced (trimEnd s).
Proof.
  induction s as [|c s IH]; [done|]. intros [H1 H2]. simpl.
  destruct (trimEnd s) as [|x t] eqn:E.
  - by destruct (is_ws c).
  - apply trimEnd_head in E as E'. destruct E' as [t' ->].
    split; [done|]. by apply IH.
Qed.

(** The shape of every normalized string. *)
Lemma normalizeString_shape s :
  Forall (λ c, normal_unit c = true) (normalizeString s)
  ∧ single_spaced (normalizeString s)
  ∧ starts_clean (normalizeString s).
Proof.
  unfold normalizeString, trim. split; [|split].
  - apply trimEnd_Forall, trimStart_Forall, collapse_normal, strip_units.
  - apply trimEnd_single_spaced, trimStart_single_spaced,
      collapse_single_spaced.
  - apply trimEnd_clean, trimStart_clean.
Qed.

(** Canonicalizing the curly marks first changes nothing: straight or curly,
    a mark is deleted by the replacement that follows. *)
Lemma strip_marks s :
  replace_class (λ c, negb (is_az c || is_09 c || is_ws c)) []
    (replace_class is_quotation_mark [quotation_mark]
       (replace_class is_apostrophe [apostrophe] s))
  = replace_class (λ c, negb (is_az c || is_09 c || is_ws c)) [] s.
Proof.
  induction s as [|c s IH]; [done|].
  unfold replace_class in *. simpl. rewrite !flat_map_app, IH. f_equal.
  destruct (is_apostrophe c) eqn:Ea; simpl.
  - replace (negb (is_az c || is_09 c || is_ws c)) with true; [done|].
    symmetry. unfold is_apostrophe in Ea. units.
  - destruct (is_quotation_mark c) eqn:Eq; simpl; [|by rewrite app_nil_r].
    replace (negb (is_az c || is_09 c || is_ws c)) with true; [done|].
    symmetry. unfold is_quotation_mark in Eq. units.
Qed.

Lemma normalize_spec_source s : normalize_spec s = normalizeString s.
Proof.
  unfold normalize_spec, normalizeString.
  by rewrite strip_marks, !replace_class_self.
Qed.

(** C8. [normalize] is idempotent: normalizing a normalized string gives it
    back, for every string. The normalizer lowercases, rewrites apostrophes
    and quotation marks, deletes every code unit that is not a lower-case
    letter, a digit or white space, collapses the runs of white space to one
    space and trims; with or without the curly marks in its quote classes it
    is the same function. *)
Theorem normalizeString_idempotent (s : jsstring) :
  normalizeString (normalizeString s) = normalizeString s
  ∧ normalize_spec s = normalizeString s
  ∧ normalize_spec (normalize_spec s) = normalize_spec s.
Proof.
  assert (normalizeString (normalizeString s) = normalizeString s) as Hidem.
  { destruct (normalizeString_shape s) as (Hn & Hs & _).
    unfold normalizeString at 1.
    rewrite (toLowerCase_normal _ Hn), !replace_class_self,
      (strip_normal _ Hn), (collapse_fixed _ Hn Hs).
    unfold normalizeString. apply trim_idemp. }
  split; [done|]. split; [apply normalize_spec_source|].
  by rewrite !normalize_spec_source.
Qed.

(** ** Edit scripts and the distance recurrence *)

Lemma lev_spec_nil_r a : lev_spec a [] = length a.
Proof. by destruct a. Qed.

Lemma lev_spec_cons x a y b :
  lev_spec (x :: a) (y :: b)
  = (lev_spec a b + (if decide (x = y) then 0 else 1))
    `min` ((lev_spec a (y :: b) + 1) `min` (lev_spec (x :: a) b + 1)).
Proof. reflexivity. Qed.

Lemma edit_script_delete_all a : edit_script a [] (length a).
Proof. induction a; simpl; by constructor. Qed.

Lemma edit_script_insert_all b : edit_script [] b (length b).
Proof. induction b; simpl; by constructor. Qed.

Lemma lev_spec_script a b : edit_script a b (lev_spec a b).
Proof.
  revert b. induction a as [|x a IHa]; intros b.
  - apply edit_script_insert_all.
  - induction b as [|y b IHb].
    + rewrite lev_spec_nil_r. apply edit_script_delete_all.
    + rewrite lev_spec_cons.
      pose proof (IHa b) as Hdiag. pose proof (IHa (y :: b)) as Hdel.
      set (m1 := lev_spec a b + (if decide (x = y) then 0 else 1)).
      set (m2 := lev_spec a (y :: b) + 1).
      set (m3 := lev_spec (x :: a) b + 1).
      destruct (Nat.min_spec m1 (m2 `min` m3)) as [[_ ->]|[_ ->]].
      * subst m1. destruct (decide (x = y)) as [->|_].
        -- rewrite Nat.add_0_r. by constructor.
        -- rewrite Nat.add_1_r. by constructor.
      * destruct (Nat.min_spec m2 m3) as [[_ ->]|[_ ->]].
        -- subst m2. rewrite Nat.add_1_r. by constructor.
        -- subst m3. rewrite Nat.add_1_r. by constructor.
Qed.

Lemma lev_spec_least a b n : edit_script a b n → lev_spec a b ≤ n.
Proof.
  induction 1 as [|c a b n _ IH|c d a b n _ IH|c a b n _ IH|d a b n _ IH].
  - done.
  - rewrite lev_spec_cons. rewrite decide_True by done. lia.
  - rewrite lev_spec_cons. destruct (decide (c = d)); lia.
  - destruct b as [|y b].
    + rewrite lev_spec_nil_r in *. simpl. lia.
    + rewrite lev_spec_cons. lia.
  - destruct a as [|x a].
    + simpl in *. lia.
    + rewrite lev_spec_cons. lia.
Qed.

(** The recurrence computes the Levenshtein distance. *)
Lemma lev_spec_is_edit_distance a b : is_edit_distance a b (lev_spec a b).
Proof. split; [apply lev_spec_script | apply lev_spec_least]. Qed.

Lemma is_edit_distance_unique a b d d' :
  is_edit_distance a b d → is_edit_distance a b d' → d = d'.
Proof.
  intros [H1 L1] [H2 L2]. apply Nat.le_antisymm; [by apply L1 | by apply L2].
Qed.

Lemma edit_script_sym a b n : edit_script a b n → edit_script b a n.
Proof. induction 1; by constructor. Qed.

Lemma lev_spec_sym a b : lev_spec a b = lev_spec b a.
Proof.
  apply Nat.le_antisymm; apply lev_spec_least, edit_script_sym,
    lev_spec_script.
Qed.

(** Scripts can be extended at the far end just as at the near end. *)
Lemma edit_script_snoc a b n :
  edit_script a b n →
  (∀ c, edit_script (a ++ [c]) (b ++ [c]) n)
  ∧ (∀ c d, edit_script (a ++ [c]) (b ++ [d]) (S n))
  ∧ (∀ c, edit_script (a ++ [c]) b (S n))
  ∧ (∀ d, edit_script a (b ++ [d]) (S n)).
Proof.
  induction 1 as [|c a b n _ (I1 & I2 & I3 & I4)|c d a b n _ (I1 & I2 & I3 & I4)
                  |c a b n _ (I1 & I2 & I3 & I4)|d a b n _ (I1 & I2 & I3 & I4)];
    repeat split; intros; simpl; try (constructor; by auto).
  - apply edit_keep, edit_done.
  - apply edit_substitute, edit_done.
  - apply edit_delete, edit_done.
  - apply edit_insert, edit_done.
Qed.

Lemma edit_script_rev a b n : edit_script a b n → edit_script (rev a) (rev b) n.
Proof.
  induction 1 as [|c a b n _ IH|c d a b n _ IH|c a b n _ IH|d a b n _ IH];
    simpl; [constructor|..];
    destruct (edit_script_snoc _ _ _ IH) as (I1 & I2 & I3 & I4); auto.
Qed.

Lemma lev_spec_rev a b : lev_spec (rev a) (rev b) = lev_spec a b.
Proof.
  apply Nat.le_antisymm.
  - apply lev_spec_least, edit_script_rev, lev_spec_script.
  - rewrite <-(rev_involutive a), <-(rev_involutive b) at 1.
    apply lev_spec_least, edit_script_rev, lev_spec_script.
Qed.

(** Dropping the first character of the target costs one edit at most. *)
Lemma edit_script_drop_target a c b n :
  edit_script a (c :: b) n → ∃ m, m ≤ S n ∧ edit_script a b m.
Proof.
  remember (c :: b) as t eqn:Et. intros H. revert c b Et.
  induction H as [|x a t n H _|x y a t n H _|x a t n _ IH|y a t n H _];
    intros c b Et.
  - done.
  - injection Et as -> ->. exists (S n). split; [lia|by constructor].
  - injection Et as -> ->. exists (S n). split; [lia|by constructor].
  - destruct (IH c b Et) as (m & Hm & Hs).
    exists (S m). split; [lia|by constructor].
  - injection Et as -> ->. exists n. split; [lia|done].
Qed.

Lemma lev_spec_drop_target a c b : lev_spec a b ≤ S (lev_spec a (c :: b)).
Proof.
  destruct (edit_script_drop_target a c b _ (lev_spec_script a (c :: b)))
    as (m & Hm & Hs).
  apply lev_spec_least in Hs. lia.
Qed.

Lemma lev_spec_drop_source c a b : lev_spec a b ≤ S (lev_spec (c :: a) b).
Proof.
  rewrite (lev_spec_sym a b), (lev_spec_sym (c :: a) b).
  apply lev_spec_drop_target.
Qed.

(** The recurrence in the form the source uses: on equal characters the
    diagonal neighbour alone, otherwise one more than the least neighbour. *)
Lemma lev_spec_step x a y b :
  lev_spec (x :: a) (y :: b)
  = if decide (y = x) then lev_spec a b
    else (lev_spec a b + 1)
         `min` ((lev_spec a (y :: b) + 1) `min` (lev_spec (x :: a) b + 1)).
Proof.
  rewrite lev_spec_cons.
  pose proof (lev_spec_drop_target a y b).
  pose proof (lev_spec_drop_source x a b).
  destruct (decide (y = x)) as [->|Hne].
  - rewrite decide_True by done. lia.
  - rewrite decide_False by congruence. lia.
Qed.

Lemma lev_spec_bound a b : lev_spec a b ≤ length a `max` length b.
Proof.
  revert b. induction a as [|x a IH]; intros b.
  - simpl. lia.
  - destruct b as [|y b].
    + rewrite lev_spec_nil_r. lia.
    + rewrite lev_spec_cons. specialize (IH b). simpl length.
      destruct (decide (x = y)); lia.
Qed.

(** ** The table of [levenshteinDistance] *)

Lemma bind_Ok {A B : Type} (x : A) (k : A → result B) : Ok x ≫= k = k x.
Proof. reflexivity. Qed.

(** A loop whose states are known in advance. *)
Lemma for_range_states {St : Type} (f : nat → St) body start count s s' :
  s = f start → s' = f (start + count) →
  (∀ k, start ≤ k < start + count → body k (f k) = Ok (f (S k))) →
  for_range start count body s = Ok s'.
Proof.
  intros -> ->. revert start. induction count as [|n IH]; intros start H; simpl.
  - by rewrite Nat.add_0_r.
  - rewrite H by lia. simpl. rewrite IH.
    + do 2 f_equal. lia.
    + intros k Hk. apply H. lia.
Qed.

Lemma fmap_seq_ext {A : Type} (f g : nat → A) n :
  (∀ r, r < n → f r = g r) → f <$> seq 0 n = g <$> seq 0 n.
Proof.
  intros H. apply list_eq. intros k. rewrite !list_lookup_fmap.
  destruct (decide (k < n)) as [Hk|Hk].
  - rewrite lookup_seq_lt by done. simpl. f_equal. by apply H.
  - by rewrite lookup_seq_ge by lia.
Qed.

Lemma insert_fmap_seq {A : Type} (f : nat → A) n k v :
  <[k:=v]> (f <$> seq 0 n)
  = (λ r, if decide (r = k) then v else f r) <$> seq 0 n.
Proof.
  apply list_eq. intros idx.
  destruct (decide (idx = k)) as [->|Hne].
  - destruct (decide (k < n)) as [Hlt|Hge].
    + rewrite list_lookup_insert_eq by (rewrite length_fmap, length_seq; lia).
      rewrite list_lookup_fmap, lookup_seq_lt by done. simpl.
      by rewrite decide_True.
    + rewrite list_insert_ge by (rewrite length_fmap, length_seq; lia).
      by rewrite !list_lookup_fmap, lookup_seq_ge by lia.
  - rewrite list_lookup_insert_ne by done.
    rewrite !list_lookup_fmap.
    destruct (decide (idx < n)) as [Hlt|Hge].
    + rewrite lookup_seq_lt by done. simpl. by rewrite decide_False.
    + by rewrite lookup_seq_ge by lia.
Qed.

Section Table.

(** The two strings whose table is filled: [a] along the columns, [b] along
    the rows. *)
Context (a b : jsstring).

Lemma table_row_length i w : length (table_row a b i w) = w.
Proof. unfold table_row. by rewrite length_fmap, length_seq. Qed.

Lemma table_row_lookup i w c :
  c < w → table_row a b i w !! c = Some (prefix_distance a b i c).
Proof.
  intros H. unfold table_row. by rewrite list_lookup_fmap, lookup_seq_lt.
Qed.

Lemma table_row_S i w :
  table_row a b i (S w) = table_row a b i w ++ [prefix_distance a b i w].
Proof. unfold table_row. by rewrite seq_S, fmap_app. Qed.

Lemma table_state_lookup i j r :
  r ≤ length b → table_state a b i j !! r = Some (row_state a b i j r).
Proof.
  intros H. unfold table_state.
  by rewrite list_lookup_fmap, lookup_seq_lt by lia.
Qed.

Lemma cell_table_state i j r c v :
  r ≤ length b → row_state a b i j r !! c = Some v →
  cell (table_state a b i j) r c = Ok v.
Proof.
  intros Hr Hc. unfold cell. by rewrite table_state_lookup, Hc.
Qed.

(** Writing the next cell of the row being filled. *)
Lemma set_cell_table_state i j :
  i ≤ length b →
  set_cell (table_state a b i j) i j (prefix_distance a b i j)
  = Ok (table_state a b i (S j)).
Proof.
  intros Hi. unfold set_cell. rewrite table_state_lookup by done.
  f_equal. unfold table_state. rewrite insert_fmap_seq.
  apply fmap_seq_ext. intros r Hr. unfold row_state.
  destruct (decide (r = i)) as [->|Hne].
  - destruct (decide (i < i)); [lia|]. rewrite decide_True by done.
    unfold array_set. rewrite table_row_length.
    rewrite decide_False by lia. rewrite Nat.sub_diag. simpl.
    by rewrite table_row_S.
  - done.
Qed.

(** *** The distances along the edges and inside *)

Lemma prefix_distance_row0 j :
  j ≤ length a → prefix_distance a b 0 j = j.
Proof.
  intros H. unfold prefix_distance. rewrite take_0. simpl.
  by rewrite lev_spec_nil_r, length_rev, length_take_le.
Qed.

Lemma prefix_distance_col0 i :
  i ≤ length b → prefix_distance a b i 0 = i.
Proof.
  intros H. unfold prefix_distance. rewrite take_0. simpl.
  by rewrite length_rev, length_take_le.
Qed.

Lemma rev_take_S (s : jsstring) n x :
  s !! n = Some x → rev (take (S n) s) = x :: rev (take n s).
Proof. intros H. by rewrite (take_S_r _ _ _ H), rev_app_distr. Qed.

Lemma prefix_distance_step i j x y :
  a !! j = Some x → b !! i = Some y →
  prefix_distance a b (S i) (S j)
  = if decide (y = x) then prefix_distance a b i j
    else (prefix_distance a b i j + 1)
         `min` ((prefix_distance a b (S i) j + 1)
                `min` (prefix_distance a b i (S j) + 1)).
Proof.
  intros Ha Hb. unfold prefix_distance.
  rewrite (rev_take_S a j x Ha), (rev_take_S b i y Hb).
  apply lev_spec_step.
Qed.

(** *** The three loops *)

Lemma first_loop :
  for_range 0 (S (length b))
    (λ i (matrix : table), Ok (array_set [] matrix i [i])) []
  = Ok ((λ r, [r]) <$> seq 0 (S (length b))).
Proof.
  apply (for_range_states (λ k, (λ r, [r]) <$> seq 0 k)); [done|done|].
  intros k _. f_equal. unfold array_set.
  rewrite length_fmap, length_seq, decide_False by lia.
  by rewrite Nat.sub_diag, seq_S, fmap_app.
Qed.

Lemma table_state_start :
  (λ r, [r]) <$> seq 0 (S (length b)) = table_state a b 0 1.
Proof.
  apply fmap_seq_ext. intros r _. unfold row_state.
  destruct (decide (r < 0)); [lia|].
  destruct (decide (r = 0)) as [->|]; done.
Qed.

Lemma second_loop :
  for_range 0 (S (length a)) (λ j matrix, set_cell matrix 0 j j)
    (table_state a b 0 1)
  = Ok (table_state a b 0 (S (length a))).
Proof.
  apply (for_range_states (λ j, table_state a b 0 (1 `max` j)));
    [done|done|].
  intros j Hj. destruct j as [|j].
  - unfold set_cell. rewrite table_state_lookup by lia. reflexivity.
  - replace (1 `max` S j) with (S j) by lia.
    replace (1 `max` S (S j)) with (S (S j)) by lia.
    rewrite <-(set_cell_table_state 0 (S j)) by lia.
    by rewrite prefix_distance_row0 by lia.
Qed.

Lemma next_row i :
  i < length b →
  table_state a b i (S (length a)) = table_state a b (S i) 1.
Proof.
  intros Hi. apply fmap_seq_ext. intros r _. unfold row_state.
  destruct (decide (r < i)).
  { by rewrite decide_True by lia. }
  destruct (decide (r = i)) as [->|].
  { by rewrite decide_True by lia. }
  rewrite decide_False by lia.
  destruct (decide (r = S i)) as [->|]; [|done].
  unfold table_row. simpl. by rewrite prefix_distance_col0 by lia.
Qed.

Lemma inner_step i j x y :
  a !! j = Some x → b !! i = Some y →
  (if decide (charAt b (S i - 1) = charAt a (S j - 1)) then
     diag ← cell (table_state a b (S i) (S j)) (S i - 1) (S j - 1);
     set_cell (table_state a b (S i) (S j)) (S i) (S j) diag
   else
     diag ← cell (table_state a b (S i) (S j)) (S i - 1) (S j - 1);
     left ← cell (table_state a b (S i) (S j)) (S i) (S j - 1);
     up ← cell (table_state a b (S i) (S j)) (S i - 1) (S j);
     set_cell (table_state a b (S i) (S j)) (S i) (S j)
       ((diag + 1) `min` ((left + 1) `min` (up + 1))))
  = Ok (table_state a b (S i) (S (S j))).
Proof.
  intros Ha Hb.
  pose proof (lookup_lt_Some _ _ _ Ha) as Hj.
  pose proof (lookup_lt_Some _ _ _ Hb) as Hi.
  simpl Nat.sub. rewrite !Nat.sub_0_r.
  rewrite (cell_table_state (S i) (S j) i j (prefix_distance a b i j));
    [|lia|].
  2:{ unfold row_state. rewrite decide_True by lia.
      apply table_row_lookup. lia. }
  rewrite (cell_table_state (S i) (S j) (S i) j
             (prefix_distance a b (S i) j)); [|lia|].
  2:{ unfold row_state. rewrite decide_False by lia.
      rewrite decide_True by done. apply table_row_lookup. lia. }
  rewrite (cell_table_state (S i) (S j) i (S j)
             (prefix_distance a b i (S j))); [|lia|].
  2:{ unfold row_state. rewrite decide_True by lia.
      apply table_row_lookup. lia. }
  rewrite <-(set_cell_table_state (S i) (S j)) by lia.
  rewrite (prefix_distance_step i j x y Ha Hb).
  unfold charAt. rewrite Ha, Hb.
  destruct (decide (y = x)) as [->|Hne].
  - by rewrite decide_True by done.
  - by rewrite decide_False by congruence.
Qed.

Lemma inner_loop i :
  i < length b →
  for_range 1 (length a) (λ j matrix,
    if decide (charAt b (S i - 1) = charAt a (j - 1)) then
      diag ← cell matrix (S i - 1) (j - 1);
      set_cell matrix (S i) j diag
    else
      diag ← cell matrix (S i - 1) (j - 1);
      left ← cell matrix (S i) (j - 1);
      up ← cell matrix (S i - 1) j;
      set_cell matrix (S i) j ((diag + 1) `min` ((left + 1) `min` (up + 1))))
    (table_state a b (S i) 1)
  = Ok (table_state a b (S i) (S (length a))).
Proof.
  intros Hi.
  apply (for_range_states (λ j, table_state a b (S i) j)); [done|done|].
  intros j Hj. destruct j as [|j]; [lia|].
  destruct (lookup_lt_is_Some_2 a j) as [x Hx]; [lia|].
  destruct (lookup_lt_is_Some_2 b i) as [y Hy]; [lia|].
  apply (inner_step i j x y Hx Hy).
Qed.

Lemma third_loop :
  for_range 1 (length b) (λ i matrix,
    for_range 1 (length a) (λ j matrix,
      if decide (charAt b (i - 1) = charAt a (j - 1)) then
        diag ← cell matrix (i - 1) (j - 1);
        set_cell matrix i j diag
      else
        diag ← cell matrix (i - 1) (j - 1);
        left ← cell matrix i (j - 1);
        up ← cell matrix (i - 1) j;
        set_cell matrix i j ((diag + 1) `min` ((left + 1) `min` (up + 1))))
      matrix)
    (table_state a b 0 (S (length a)))
  = Ok (table_state a b (length b) (S (length a))).
Proof.
  apply (for_range_states (λ i, table_state a b (i - 1) (S (length a)))).
  - done.
  - do 2 f_equal. lia.
  - intros i Hi. destruct i as [|i]; [lia|].
    replace (S i - 1) with i by lia.
    rewrite next_row by lia.
    replace (S (S i) - 1) with (S i) by lia.
    rewrite <-(inner_loop i) by lia.
    by replace (S i - 1) with i by lia.
Qed.

End Table.

(** The table computes the recurrence, and never leaves its bounds. *)
Theorem levenshteinDistance_correct (a b : jsstring) :
  levenshteinDistance a b = Ok (lev_spec a b).
Proof.
  unfold levenshteinDistance.
  rewrite first_loop, bind_Ok, (table_state_start a b), second_loop, bind_Ok,
    third_loop, bind_Ok.
  rewrite (cell_table_state a b _ _ _ _ (prefix_distance a b (length b) (length a)));
    [|done|].
  - unfold prefix_distance. by rewrite !take_ge, lev_spec_rev by done.
  - unfold row_state. rewrite decide_False by lia. rewrite decide_True by done.
    apply table_row_lookup. lia.
Qed.

(** The distance computed by the source is the least cost of an edit script. *)
Corollary levenshteinDistance_is_edit_distance (a b : jsstring) :
  ∃ d, levenshteinDistance a b = Ok d ∧ is_edit_distance a b d.
Proof.
  exists (lev_spec a b).
  split; [apply levenshteinDistance_correct | apply lev_spec_is_edit_distance].
Qed.

(** ** The similarity scorer *)

(** Different normalized strings are not both empty, so the second early
    return of [similarity] is never taken. *)
Lemma max_length_pos (s t : jsstring) : s ≠ t → length s `max` length t ≠ 0.
Proof.
  intros Hne Hmax. apply Hne.
  destruct s, t; simpl in Hmax; try lia. done.
Qed.

Lemma similarity_value a b :
  similarity a b
  = Ok (if decide (normalizeString a = normalizeString b) then 1
        else 1 - inject_Z (Z.of_nat
                   (lev_spec (normalizeString a) (normalizeString b)))
                 / inject_Z (Z.of_nat
                     (length (normalizeString a)
                      `max` length (normalizeString b))))%Q.
Proof.
  unfold similarity.
  destruct (decide (normalizeString a = normalizeString b)) as [|Hne]; [done|].
  rewrite decide_False by by apply max_length_pos.
  by rewrite levenshteinDistance_correct.
Qed.

Lemma ratio_bounds (d m : nat) :
  d ≤ m → m ≠ 0 →
  (0 <= 1 - inject_Z (Z.of_nat d) / inject_Z (Z.of_nat m)
   ∧ 1 - inject_Z (Z.of_nat d) / inject_Z (Z.of_nat m) <= 1)%Q.
Proof.
  intros Hd Hm.
  assert (0 < inject_Z (Z.of_nat m))%Q as Hpos.
  { rewrite <-(Zlt_Qlt 0). lia. }
  assert (0 <= inject_Z (Z.of_nat d) / inject_Z (Z.of_nat m))%Q as H0.
  { apply Qle_shift_div_l; [done|]. rewrite Qmult_0_l.
    rewrite <-(Zle_Qle 0). lia. }
  assert (inject_Z (Z.of_nat d) / inject_Z (Z.of_nat m) <= 1)%Q as H1.
  { apply Qle_shift_div_r; [done|]. rewrite Qmult_1_l.
    rewrite <-Zle_Qle. lia. }
  split; lra.
Qed.

(** C1. For all strings [a] and [b], [similarity a b] normalizes both; it
    returns exactly 1 when the normalized forms are identical (both empty
    included), and otherwise [1 - d / max (len normA) (len normB)], where [d]
    is the Levenshtein distance of the normalized strings (the least cost of
    an edit script with unit-cost substitution, insertion and deletion); the
    result always lies between 0 and 1. *)
Theorem similarity_spec (a b : jsstring) :
  ∃ (d : nat) (q : Q),
    is_edit_distance (normalizeString a) (normalizeString b) d
    ∧ similarity a b = Ok q
    ∧ q = (if decide (normalizeString a = normalizeString b) then 1
           else 1 - inject_Z (Z.of_nat d)
                    / inject_Z (Z.of_nat
                        (length (normalizeString a)
                         `max` length (normalizeString b))))%Q
    ∧ (0 <= q)%Q ∧ (q <= 1)%Q.
Proof.
  exists (lev_spec (normalizeString a) (normalizeString b)). eexists.
  split; [apply lev_spec_is_edit_distance|].
  split; [apply similarity_value|]. split; [done|].
  destruct (decide (normalizeString a = normalizeString b)) as [|Hne].
  - split; lra.
  - apply ratio_bounds; [apply lev_spec_bound | by apply max_length_pos].
Qed.

(** C7. [similarity] is symmetric: [similarity a b] and [similarity b a] are
    the same value for all strings, although the table of the distance has
    [b] along its rows and [a] along its columns. *)
Theorem similarity_symmetric (a b : jsstring) :
  similarity a b = similarity b a.
Proof.
  rewrite !similarity_value.
  destruct (decide (normalizeString a = normalizeString b)) as [E|Hne].
  - by rewrite decide_True by done.
  - rewrite decide_False by congruence.
    by rewrite Nat.max_comm, lev_spec_sym.
Qed.

(** Two inputs that both normalize to the empty string. *)
Example similarity_empty : similarity (js "") (js " ?! ") = Ok 1%Q.
Proof. vm_compute. reflexivity. Qed.

(** The two argument orders fill different tables and still agree. *)
Example levenshtein_orders :
  levenshteinDistance (js "sunday") (js "saturdays") = Ok 4
  ∧ levenshteinDistance (js "saturdays") (js "sunday") = Ok 4.
Proof. vm_compute. auto. Qed.

(** ** The scene validator *)

Lemma split_go_length pw s :
  length (split_go pw s) + Nat.b2n pw
  = count_words pw s + 1 + Nat.b2n (ends_ws pw s).
Proof.
  revert pw. induction s as [|c s IH]; intros pw; simpl.
  - lia.
  - destruct (is_ws c) eqn:E.
    + specialize (IH true). destruct pw; simpl in *; lia.
    + specialize (IH false). simpl in IH.
      destruct (split_go false s) as [|piece pieces] eqn:Es; simpl in *;
        destruct pw; simpl; lia.
Qed.

Lemma count_words_trimStart s : count_words true (trimStart s) = word_count s.
Proof.
  unfold word_count. induction s as [|c s IH]; [done|]. simpl.
  destruct (is_ws c) eqn:E; [done|]. simpl. by rewrite E.
Qed.

Lemma count_words_trimEnd pw s : count_words pw (trimEnd s) = count_words pw s.
Proof.
  revert pw. induction s as [|c s IH]; intros pw; [done|]. simpl.
  destruct (trimEnd s) as [|x t] eqn:Et.
  - pose proof (IH true) as Ht. pose proof (IH false) as Hf. simpl in Ht, Hf.
    destruct (is_ws c) eqn:E; simpl; rewrite ?E; lia.
  - change (count_words pw (c :: x :: t))
      with (if is_ws c then count_words true (x :: t)
            else (if pw then 1 else 0) + count_words false (x :: t)).
    by rewrite !IH.
Qed.

Lemma word_count_trim s : word_count (trim s) = word_count s.
Proof.
  unfold trim, word_count at 1.
  by rewrite count_words_trimEnd, count_words_trimStart.
Qed.

Lemma trimEnd_ends pw s : trimEnd s ≠ [] → ends_ws pw (trimEnd s) = false.
Proof.
  revert pw. induction s as [|c s IH]; intros pw; [done|]. simpl.
  destruct (trimEnd s) as [|x t] eqn:Et.
  - destruct (is_ws c) eqn:E; [done|]. intros _. simpl. done.
  - intros _. change (ends_ws pw (c :: x :: t)) with (ends_ws (is_ws c) (x :: t)).
    by apply IH.
Qed.

(** On a trimmed string the source's [split] counts the words. *)
Lemma split_ws_trim_length s :
  trim s ≠ [] → length (split_ws (trim s)) = word_count s.
Proof.
  intros Hne. rewrite <-word_count_trim.
  pose proof (split_go_length false (trim s)) as H.
  unfold trim in H at 3. rewrite trimEnd_ends in H by done.
  assert (starts_clean (trim s)) as Hc
    by apply trimEnd_clean, trimStart_clean.
  unfold split_ws, word_count. destruct (trim s) as [|c t]; [done|].
  simpl in Hc. simpl in *. rewrite Hc in *. simpl in *. lia.
Qed.

Lemma word_count_nil_trim s : trim s = [] → word_count s = 0.
Proof. intros H. by rewrite <-word_count_trim, H. Qed.

Lemma isValidQuote_outside st sc :
  ¬ season_in_range st sc → isValidQuote st sc = false.
Proof.
  intros H. unfold isValidQuote.
  destruct (_ || _)%Z eqn:E; [done|]. exfalso. apply H.
  apply orb_false_iff in E as [E1 E2]. unfold season_in_range. lia.
Qed.

(** Acceptance, for any quote with enough words. *)
Lemma isValidQuote_accepts st sc :
  season_in_range st sc →
  minQuoteWords CONFIG ≤ word_count (getQuoteText sc) →
  startsWith (trim (getQuoteText sc)) left_bracket = false →
  2 * bracketed_length (getQuoteText sc) ≤ length (getQuoteText sc) →
  isValidQuote st sc = true.
Proof.
  intros [Hlo Hhi] Hwords Hstart Hbr. unfold isValidQuote.
  replace (_ || _)%Z with false
    by (symmetry; apply orb_false_iff; split; lia).
  assert (trim (getQuoteText sc) ≠ []) as Htrim.
  { intros E. apply word_count_nil_trim in E. simpl in Hwords. lia. }
  rewrite decide_False by (by intros E; rewrite E in Htrim).
  rewrite split_ws_trim_length by done.
  replace (_ <? _) with false by (symmetry; apply Nat.ltb_ge; lia).
  rewrite Hstart. unfold bracketed_length in Hbr.
  destruct (bracketed (getQuoteText sc)) as [|m ms]; [done|].
  replace (_ <? _) with false by (symmetry; apply Nat.ltb_ge; lia).
  done.
Qed.

Example validator_accepts_smoke :
  isValidQuote initial_state
    (sample_scene 1 11 "The Crepes of Wrath"
       "I didn't know you could smoke four at once") = true.
Proof. vm_compute. reflexivity. Qed.

Example validator_rejects_grunting :
  isValidQuote initial_state
    (sample_scene 1 11 "The Crepes of Wrath" "[GRUNTING]") = false.
Proof. vm_compute. reflexivity. Qed.

(** The season guard comes first: a quote of exactly [minQuoteWords] words
    that does not start with a bracket and has no bracketed span is rejected
    all the same when the scene's season (10) lies outside the range
    (1..9). *)
Example validator_season_guard_first :
  word_count (getQuoteText (sample_scene 10 1 "Bart vs. Thanksgiving"
                              "one two three four five"))
  = minQuoteWords CONFIG
  ∧ startsWith (trim (getQuoteText (sample_scene 10 1 "Bart vs. Thanksgiving"
                                      "one two three four five")))
      left_bracket = false
  ∧ 2 * bracketed_length (getQuoteText (sample_scene 10 1 "Bart vs. Thanksgiving"
                                          "one two three four five"))
    ≤ length (getQuoteText (sample_scene 10 1 "Bart vs. Thanksgiving"
                              "one two three four five"))
  ∧ isValidQuote initial_state
      (sample_scene 10 1 "Bart vs. Thanksgiving" "one two three four five")
    = false.
Proof. vm_compute. repeat split; lia. Qed.

(** C5. A scene whose season lies outside the range is rejected, whatever
    its other fields; and a scene (its season inside the range, the case the
    first half leaves open) whose quote has exactly [minQuoteWords]
    white-space separated words, whose trimmed quote does not start with a
    left bracket and whose bracketed spans hold at most half of the quote's
    code units, is accepted. *)
Theorem validator_season_and_boundary (st : State) (sc : Scene) :
  (¬ season_in_range st sc → isValidQuote st sc = false)
  ∧ (season_in_range st sc →
     word_count (getQuoteText sc) = minQuoteWords CONFIG →
     startsWith (trim (getQuoteText sc)) left_bracket = false →
     2 * bracketed_length (getQuoteText sc) ≤ length (getQuoteText sc) →
     isValidQuote st sc = true).
Proof.
  split; [apply isValidQuote_outside|].
  intros Hin Hw. apply isValidQuote_accepts; [done|]. by rewrite Hw.
Qed.

Lemma validator_season_and_boundary_witness :
  isValidQuote initial_state
    (sample_scene 3 1 "Stark Raving Dad" "one two [LAUGHS] four five") = true.
Proof.
  apply (validator_season_and_boundary initial_state
           (sample_scene 3 1 "Stark Raving Dad" "one two [LAUGHS] four five")).
  - vm_compute. split; discriminate.
  - vm_compute. reflexivity.
  - vm_compute. reflexivity.
  - vm_compute. lia.
Defined.

(** ** The scene acquisition loop *)

Lemma getValidScene_loop_skip st responses k budget attempts :
  (∀ j, j < k → rejected_at st responses (attempts + j)) →
  getValidScene_loop st responses (k + budget) attempts
  = getValidScene_loop st responses budget (attempts + k).
Proof.
  revert attempts. induction k as [|k IH]; intros attempts H.
  - by rewrite Nat.add_0_r.
  - destruct (H 0) as (sc & Hr & Hv); [lia|].
    rewrite Nat.add_0_r in Hr. simpl. rewrite Hr, Hv.
    rewrite IH.
    + f_equal. lia.
    + intros j Hj. replace (S attempts + j) with (attempts + S j) by lia.
      apply H. lia.
Qed.

(** C3. The acquisition loop fetches one candidate at a time and tests it
    with the validator; the first accepted scene is returned at once (after
    as many fetches as candidates seen); when every fetched candidate is
    rejected, the loop makes exactly 50 fetches and then fails with
    [NoValidSceneFound], whatever a 51st fetch would have answered. *)
Theorem getValidScene_spec (st : State) (responses : nat → result Scene) :
  (∀ k sc,
     k < 50 →
     (∀ j, j < k → rejected_at st responses j) →
     responses k = Ok sc → isValidQuote st sc = true →
     getValidScene st responses = (Ok sc, S k))
  ∧ ((∀ j, j < 50 → rejected_at st responses j) →
     getValidScene st responses = (Throw NoValidSceneFound, 50)
     ∧ ∀ others,
         (∀ j, j < 50 → others j = responses j) →
         getValidScene st others = (Throw NoValidSceneFound, 50)).
Proof.
  unfold getValidScene, maxAttempts. split.
  - intros k sc Hk Hrej Hresp Hvalid.
    replace 50 with (k + S (49 - k)) by lia.
    rewrite getValidScene_loop_skip by done.
    simpl. by rewrite Hresp, Hvalid.
  - intros Hrej.
    assert (∀ rs, (∀ j, j < 50 → rejected_at st rs j) →
                  getValidScene_loop st rs 50 0
                  = (Throw NoValidSceneFound, 50)) as Hall.
    { intros rs Hrs.
      exact (getValidScene_loop_skip st rs 50 0 0 Hrs). }
    split; [by apply Hall|].
    intros others Hsame. apply Hall. intros j Hj.
    destruct (Hrej j Hj) as (sc & Hr & Hv).
    exists sc. by rewrite Hsame.
Qed.

Lemma getValidScene_spec_witness :
  getValidScene initial_state third_time_lucky = (Ok smoke, 3)
  ∧ getValidScene initial_state always_grunting
    = (Throw NoValidSceneFound, 50).
Proof.
  split.
  - apply (proj1 (getValidScene_spec initial_state third_time_lucky) 2).
    + lia.
    + intros j Hj. exists grunting.
      destruct j as [|[|j]]; [by vm_compute..|lia].
    + reflexivity.
    + vm_compute. reflexivity.
  - refine (proj1 (proj2 (getValidScene_spec initial_state always_grunting) _)).
    intros j _. exists grunting. by vm_compute.
Defined.

(** ** Hints *)

Lemma revealHint_noop st h :
  h ∈ revealed st ∨ guessed st = true → revealHint st h = st.
Proof.
  intros [H|H]; unfold revealHint.
  - by rewrite bool_decide_eq_true_2.
  - by rewrite H, orb_true_r.
Qed.

Lemma revealHint_fresh st h :
  h ∉ revealed st → guessed st = false →
  revealHint st h
  = {| scene := scene st;
       roundPoints := Z.max 0 (roundPoints st - hintCosts CONFIG h);
       totalPoints := totalPoints st;
       roundsPlayed := roundsPlayed st;
       revealed := revealed st ∪ {[h]};
       guessed := false;
       won := won st;
       seasonRange := seasonRange st |}.
Proof.
  intros Hh Hg. unfold revealHint.
  by rewrite bool_decide_eq_false_2, Hg.
Qed.

(** C4. [revealHint] leaves the state unchanged when the hint is already
    revealed or the round is guessed; otherwise it subtracts the hint's fixed
    cost from the round's points, floors the result at 0 and adds the hint to
    the revealed set, touching nothing else. From 100 points, revealing the
    season (cost 20) and then the image (cost 30) leaves 50 points, and
    revealing the season again changes nothing. *)
Theorem revealHint_spec (st : State) (h : HintType) :
  (h ∈ revealed st ∨ guessed st = true → revealHint st h = st)
  ∧ (h ∉ revealed st → guessed st = false →
     revealHint st h
     = {| scene := scene st;
          roundPoints := Z.max 0 (roundPoints st - hintCosts CONFIG h);
          totalPoints := totalPoints st;
          roundsPlayed := roundsPlayed st;
          revealed := revealed st ∪ {[h]};
          guessed := guessed st;
          won := won st;
          seasonRange := seasonRange st |})
  ∧ hintCosts CONFIG season = 20%Z ∧ hintCosts CONFIG image = 30%Z
  ∧ (roundPoints st = 100%Z → revealed st = ∅ → guessed st = false →
     roundPoints (revealHint (revealHint st season) image) = 50%Z
     ∧ revealHint (revealHint (revealHint st season) image) season
       = revealHint (revealHint st season) image).
Proof.
  split; [apply revealHint_noop|].
  split; [intros Hh Hg; rewrite Hg; by apply revealHint_fresh|].
  split; [done|]. split; [done|].
  intros Hp Hr Hg.
  rewrite (revealHint_fresh st season); [|rewrite Hr; set_solver|done].
  rewrite revealHint_fresh; [| |done].
  2:{ simpl. rewrite Hr.
      by intros [?%elem_of_empty|?%elem_of_singleton]%elem_of_union. }
  simpl. rewrite Hp. split; [done|].
  apply revealHint_noop. left. simpl. set_solver.
Qed.

Lemma revealHint_spec_witness :
  roundPoints (revealHint (revealHint (playing smoke 100) season) image) = 50%Z
  ∧ revealHint (revealHint (revealHint (playing smoke 100) season) image) season
    = revealHint (revealHint (playing smoke 100) season) image.
Proof.
  apply (revealHint_spec (playing smoke 100) season); reflexivity.
Defined.

(** The floor: a hint that costs more than what is left leaves 0 points. *)
Example revealHint_floor :
  roundPoints (revealHint (playing smoke 10) episodeNumber) = 0%Z.
Proof.
  rewrite revealHint_fresh by (simpl; set_solver). reflexivity.
Qed.

(** ** The season range *)

(** C6 fails on the code: with both fields above 20 the range comes out with
    its lower end (25) above its upper end (20) and outside 1..20; with both
    below 1 the upper end (-3) falls under 1. Only the lower end is clamped
    from below and only the upper end from above. *)
Theorem getSeasonRange_out_of_bounds :
  getSeasonRange (js "25") (js "30") = {| range_min := 25; range_max := 20 |}
  ∧ getSeasonRange (js "-5") (js "-3") = {| range_min := 1; range_max := -3 |}.
Proof. vm_compute. auto. Qed.

(** What the two clamps do give. *)
Lemma getSeasonRange_clamps seasonMin seasonMax :
  (1 ≤ range_min (getSeasonRange seasonMin seasonMax))%Z
  ∧ (range_max (getSeasonRange seasonMin seasonMax) ≤ 20)%Z.
Proof. unfold getSeasonRange. simpl. lia. Qed.

(** With both fields inside 1..20 the range is ordered and inside 1..20. *)
Lemma getSeasonRange_inside seasonMin seasonMax lo hi :
  parseInt seasonMin = Some lo → parseInt seasonMax = Some hi →
  (1 ≤ lo ≤ 20)%Z → (1 ≤ hi ≤ 20)%Z →
  getSeasonRange seasonMin seasonMax
  = {| range_min := Z.min lo hi; range_max := Z.max lo hi |}.
Proof.
  intros Hlo Hhi Rlo Rhi. unfold getSeasonRange. rewrite Hlo, Hhi. simpl.
  destruct (Z.eqb_spec lo 0); [lia|]. destruct (Z.eqb_spec hi 0); [lia|].
  f_equal; lia.
Qed.

(** ** Normalizing absorbs trimming *)

Lemma ws_unit_kept c :
  is_ws c = true →
  lower_unit c = [c] ∧ negb (is_az c || is_09 c || is_ws c) = false.
Proof.
  intros H. split.
  - unfold lower_unit.
    destruct (N.leb_spec 65 c), (N.leb_spec c 90); simpl; [units | | |];
      (destruct (N.leb_spec 192 c), (N.leb_spec c 222); simpl; [units | | |]);
      (destruct (N.eqb_spec c 304); [units |]);
      (destruct (N.eqb_spec c 8490); [units | done]).
  - by rewrite H, orb_true_r.
Qed.

Lemma strip_lower_app s t : strip_lower (s ++ t) = strip_lower s ++ strip_lower t.
Proof.
  unfold strip_lower. rewrite !replace_class_self.
  unfold replace_class, toLowerCase. by rewrite !flat_map_app.
Qed.

Lemma strip_lower_ws w : Forall (λ c, is_ws c = true) w → strip_lower w = w.
Proof.
  unfold strip_lower. rewrite !replace_class_self.
  induction 1 as [|c w Hc _ IH]; [done|].
  destruct (ws_unit_kept c Hc) as [Hl Hk].
  unfold replace_class, toLowerCase in *. simpl. rewrite Hl. simpl.
  by rewrite Hk, IH.
Qed.

Lemma trimStart_split s :
  ∃ w, Forall (λ c, is_ws c = true) w ∧ s = w ++ trimStart s.
Proof.
  induction s as [|c s (w & Hw & IH)]; [by exists []|]. simpl.
  destruct (is_ws c) eqn:E.
  - exists (c :: w). split; [by constructor|]. simpl. by rewrite <-IH.
  - by exists [].
Qed.

Lemma trimEnd_split s :
  ∃ w, Forall (λ c, is_ws c = true) w ∧ s = trimEnd s ++ w.
Proof.
  induction s as [|c s (w & Hw & IH)]; [by exists []|]. simpl.
  destruct (trimEnd s) as [|x t] eqn:Et.
  - destruct (is_ws c) eqn:E.
    + exists (c :: w). split; [by constructor|]. simpl. by rewrite IH at 1.
    + exists w. split; [done|]. simpl. by rewrite IH at 1.
  - exists w. split; [done|]. simpl. by rewrite IH at 1.
Qed.

Lemma trimStart_collapse s :
  trimStart (replace_runs is_ws [space] s)
  = replace_runs is_ws [space] (trimStart s).
Proof.
  induction s as [|c s IH]; [done|].
  destruct (is_ws c) eqn:E.
  - simpl trimStart at 2. rewrite E, <-IH. simpl replace_runs. rewrite E.
    destruct s as [|c' s]; [done|]. by destruct (is_ws c').
  - simpl trimStart at 2. rewrite E.
    rewrite replace_runs_cons_other by done. simpl. by rewrite E.
Qed.

Lemma collapse_ws_only w :
  Forall (λ c, is_ws c = true) w →
  trimEnd (replace_runs is_ws [space] w) = [].
Proof.
  induction 1 as [|c w Hc Hw IH]; [done|]. simpl. rewrite Hc.
  destruct Hw as [|c' w Hc' Hw]; [done|]. by rewrite Hc'.
Qed.

Lemma collapse_cons_ws c c' r :
  is_ws c = true →
  replace_runs is_ws [space] (c :: c' :: r)
  = if is_ws c' then replace_runs is_ws [space] (c' :: r)
    else space :: replace_runs is_ws [space] (c' :: r).
Proof. intros E. simpl. rewrite E. by destruct (is_ws c'). Qed.

Lemma trimEnd_cons_congr c s t :
  trimEnd s = trimEnd t → trimEnd (c :: s) = trimEnd (c :: t).
Proof. intros H. simpl. by rewrite H. Qed.

Lemma trimEnd_collapse_ws s w :
  Forall (λ c, is_ws c = true) w →
  trimEnd (replace_runs is_ws [space] (s ++ w))
  = trimEnd (replace_runs is_ws [space] s).
Proof.
  intros Hw. induction s as [|c s IH].
  - simpl app. by rewrite collapse_ws_only.
  - destruct (is_ws c) eqn:E.
    + destruct s as [|c' s].
      * rewrite (collapse_ws_only ([c] ++ w)) by (by constructor).
        rewrite (collapse_ws_only [c]) by (by repeat constructor). done.
      * change ((c :: c' :: s) ++ w) with (c :: c' :: (s ++ w)).
        rewrite !collapse_cons_ws by done.
        destruct (is_ws c'); [done|]. by apply trimEnd_cons_congr.
    + simpl app. rewrite !replace_runs_cons_other by done.
      by apply trimEnd_cons_congr.
Qed.

Lemma trimStart_app_ws s w :
  Forall (λ c, is_ws c = true) w →
  ∃ w', Forall (λ c, is_ws c = true) w'
        ∧ trimStart (s ++ w) = trimStart s ++ w'.
Proof.
  intros Hw. induction s as [|c s IH]; simpl.
  - exists []. split; [done|].
    induction Hw as [|c w Hc _ IHw]; [done|]. simpl. by rewrite Hc.
  - destruct (is_ws c); [done|]. by exists w.
Qed.

(** White space at either end of the input does not reach the result. *)
Lemma normalizeString_trim s : normalizeString (trim s) = normalizeString s.
Proof.
  assert (∀ x, normalizeString x
               = trimEnd (replace_runs is_ws [space] (trimStart (strip_lower x))))
    as Hnorm.
  { intros x. unfold normalizeString, trim. by rewrite trimStart_collapse. }
  rewrite !Hnorm.
  destruct (trimStart_split s) as (w1 & Hw1 & Es).
  destruct (trimEnd_split (trimStart s)) as (w2 & Hw2 & Et).
  fold (trim s) in Et. rewrite Et in Es. rewrite Es at 2.
  rewrite !strip_lower_app, (strip_lower_ws w1), (strip_lower_ws w2) by done.
  assert (∀ y, trimStart (w1 ++ y) = trimStart y) as Hdrop.
  { intros y. clear Es. induction Hw1 as [|c w Hc _ IH]; [done|].
    simpl. by rewrite Hc. }
  rewrite Hdrop.
  destruct (trimStart_app_ws (strip_lower (trim s)) w2 Hw2) as (w' & Hw' & ->).
  by rewrite trimEnd_collapse_ws.
Qed.

Lemma similarity_trim guess title :
  similarity (trim guess) title = similarity guess title.
Proof. by rewrite !similarity_value, normalizeString_trim. Qed.

(** ** Guess submission *)

Lemma structured_bonus_points field actual bonus hit miss :
  fst (structured_bonus (parseInt field) actual bonus hit miss)
  = if guess_matches field actual then bonus else 0%Z.
Proof.
  unfold structured_bonus, guess_matches, supplied.
  destruct (parseInt field) as [g|]; [|done].
  destruct (truthy (Some g)); simpl; [|done].
  destruct (Z.eqb_spec g actual) as [->|Hne].
  - by rewrite bool_decide_eq_true_2.
  - by rewrite bool_decide_eq_false_2 by congruence.
Qed.

Lemma structured_bonus_not_supplied field actual bonus hit miss :
  not_supplied field →
  structured_bonus (parseInt field) actual bonus hit miss = (0%Z, []).
Proof. by intros [-> | ->]. Qed.

Lemma supplied_false field : supplied field = false ↔ not_supplied field.
Proof.
  unfold supplied, not_supplied, truthy.
  destruct (parseInt field) as [g|]; [|naive_solver].
  destruct (Z.eqb_spec g 0) as [->|Hne]; simpl; [naive_solver|].
  split; [done|]. intros [|[=]]; done.
Qed.

(** The season notes come from the season block only, and likewise for the
    episode notes. *)
Lemma season_block_notes g actual bonus :
  Forall (λ n, is_episode_note n = false)
    (snd (structured_bonus g actual bonus SeasonCorrect SeasonMismatch)).
Proof.
  unfold structured_bonus. destruct g as [v|]; [|by constructor].
  destruct (truthy (Some v)); simpl; [|by constructor].
  destruct (v =? actual)%Z; by repeat constructor.
Qed.

Lemma episode_block_notes g actual bonus :
  Forall (λ n, is_season_note n = false)
    (snd (structured_bonus g actual bonus EpisodeCorrect EpisodeMismatch)).
Proof.
  unfold structured_bonus. destruct g as [v|]; [|by constructor].
  destruct (truthy (Some v)); simpl; [|by constructor].
  destruct (v =? actual)%Z; by repeat constructor.
Qed.

Lemma checkAnswer_returns st sc guess :
  scene st = Some sc →
  ∃ chk sim,
    checkAnswer st guess = Ok chk
    ∧ similarity guess (Title (Episode sc)) = Ok sim
    ∧ correct chk = Qle_bool (similarityThreshold CONFIG) sim.
Proof.
  intros Hsc. unfold checkAnswer. rewrite Hsc, similarity_value.
  by eexists _, _.
Qed.

(** A submission that is not an early return, spelled out. *)
Lemma submitGuess_accepted st sc guessInput guessSeason guessEpisode chk :
  scene st = Some sc → guessed st = false → trim guessInput ≠ [] →
  checkAnswer st (trim guessInput) = Ok chk →
  ∃ st' panel,
    submitGuess st guessInput guessSeason guessEpisode = Ok (st', Some panel)
    ∧ panel = showResult st' chk (bonusResult panel)
    ∧ guessed st' = true ∧ won st' = correct chk
    ∧ roundPoints st'
      = (base_points chk st
         + fst (structured_bonus (parseInt guessSeason) (Season (Episode sc))
                  (bonus_season (bonusPoints CONFIG))
                  SeasonCorrect SeasonMismatch)
         + fst (structured_bonus (parseInt guessEpisode)
                  (EpisodeNumber (Episode sc))
                  (bonus_episode (bonusPoints CONFIG))
                  EpisodeCorrect EpisodeMismatch))%Z
    ∧ bonusResult panel
      = snd (structured_bonus (parseInt guessSeason) (Season (Episode sc))
               (bonus_season (bonusPoints CONFIG))
               SeasonCorrect SeasonMismatch)
        ++ snd (structured_bonus (parseInt guessEpisode)
                  (EpisodeNumber (Episode sc))
                  (bonus_episode (bonusPoints CONFIG))
                  EpisodeCorrect EpisodeMismatch)
    ∧ totalPoints st' = (totalPoints st + roundPoints st')%Z
    ∧ roundsPlayed st' = (roundsPlayed st + 1)%Z.
Proof.
  intros Hsc Hg Hne Hchk. unfold submitGuess.
  rewrite Hg, decide_False, Hchk, bind_Ok, Hsc by done.
  destruct (structured_bonus (parseInt guessSeason) _ _ _ _) as [sp stext].
  destruct (structured_bonus (parseInt guessEpisode) _ _ _ _) as [ep etext].
  eexists _, _. split; [done|]. simpl. unfold base_points.
  repeat split; lia.
Qed.

(** C2. For every submission made on a scene while the round is not guessed
    and whose guess text is not empty once trimmed, the round's final points
    are the
    points left before the guess if the title is judged correct (0 if not),
    plus the season bonus when a season guess was supplied and equals the
    scene's season, plus the episode bonus when an episode guess was supplied
    and equals the scene's episode number; the title is judged correct when
    its similarity to the scene's title reaches the threshold (the source
    passes the trimmed text, whose similarity is that of the text as typed);
    the bonuses do not depend on the title's verdict. A lost title with a
    matching season guess and no matching episode guess is worth 25 points.
    A guess is supplied when its field parses to a number that JavaScript
    takes for true. *)
Theorem submitGuess_points (st : State) (sc : Scene)
    (guessInput guessSeason guessEpisode : jsstring) :
  scene st = Some sc → guessed st = false → trim guessInput ≠ [] →
  ∃ sim chk st' panel,
    similarity guessInput (Title (Episode sc)) = Ok sim
    ∧ checkAnswer st (trim guessInput) = Ok chk
    ∧ correct chk = Qle_bool (similarityThreshold CONFIG) sim
    ∧ submitGuess st guessInput guessSeason guessEpisode = Ok (st', Some panel)
    ∧ roundPoints st'
      = ((if correct chk then roundPoints st else 0)
         + (if guess_matches guessSeason (Season (Episode sc))
            then bonus_season (bonusPoints CONFIG) else 0)
         + (if guess_matches guessEpisode (EpisodeNumber (Episode sc))
            then bonus_episode (bonusPoints CONFIG) else 0))%Z
    ∧ roundScoreResult panel = roundPoints st'
    ∧ (correct chk = false →
       guess_matches guessSeason (Season (Episode sc)) = true →
       guess_matches guessEpisode (EpisodeNumber (Episode sc)) = false →
       roundPoints st' = 25%Z).
Proof.
  intros Hsc Hg Hne.
  destruct (checkAnswer_returns st sc (trim guessInput) Hsc)
    as (chk & sim & Hchk & Hsim & Hcorrect).
  destruct (submitGuess_accepted st sc guessInput guessSeason guessEpisode
              chk Hsc Hg Hne Hchk)
    as (st' & panel & Hsub & Hpanel & _ & _ & Hpts & _).
  rewrite similarity_trim in Hsim.
  rewrite !structured_bonus_points in Hpts. unfold base_points in Hpts.
  exists sim, chk, st', panel. repeat (split; [done|]).
  split; [by rewrite Hpanel|].
  intros Hwrong Hs He. rewrite Hpts, Hwrong, Hs, He. reflexivity.
Qed.

Lemma submitGuess_points_witness :
  ∃ sim chk st' panel,
    similarity (js " Bart the Genius ") (Title (Episode smoke)) = Ok sim
    ∧ checkAnswer (playing smoke 70) (trim (js " Bart the Genius ")) = Ok chk
    ∧ correct chk = Qle_bool (similarityThreshold CONFIG) sim
    ∧ submitGuess (playing smoke 70) (js " Bart the Genius ") (js "1") (js "4")
      = Ok (st', Some panel)
    ∧ roundPoints st'
      = ((if correct chk then roundPoints (playing smoke 70) else 0)
         + (if guess_matches (js "1") (Season (Episode smoke))
            then bonus_season (bonusPoints CONFIG) else 0)
         + (if guess_matches (js "4") (EpisodeNumber (Episode smoke))
            then bonus_episode (bonusPoints CONFIG) else 0))%Z
    ∧ roundScoreResult panel = roundPoints st'
    ∧ (correct chk = false →
       guess_matches (js "1") (Season (Episode smoke)) = true →
       guess_matches (js "4") (EpisodeNumber (Episode smoke)) = false →
       roundPoints st' = 25%Z).
Proof.
  apply (submitGuess_points (playing smoke 70) smoke (js " Bart the Genius ")
           (js "1") (js "4")).
  - reflexivity.
  - reflexivity.
  - vm_compute. discriminate.
Defined.

(** The example of the specification, run: the title is lost, the season
    guess is right, and the round is worth the season bonus. *)
Example lost_title_right_season :
  ∃ st' panel,
    submitGuess (playing smoke 70) (js "Bart the Genius") (js "1") (js "")
    = Ok (st', Some panel)
    ∧ resultCorrect panel = false ∧ roundPoints st' = 25%Z
    ∧ bonusResult panel = [SeasonCorrect 25].
Proof. eexists _, _. vm_compute. auto. Qed.

(** C10. A structured season or episode guess whose field is empty, is not
    numeric or parses to 0 is treated as not supplied: it adds no bonus
    points and puts no note, neither a success nor a mismatch, on the bonus
    notes; the test for a supplied guess is the truthiness of the parsed
    number. *)
Theorem unsupplied_structured_guess (st : State) (sc : Scene)
    (guessInput guessSeason guessEpisode : jsstring) :
  scene st = Some sc → guessed st = false → trim guessInput ≠ [] →
  not_supplied []
  ∧ (supplied guessSeason = false ↔ not_supplied guessSeason)
  ∧ (supplied guessEpisode = false ↔ not_supplied guessEpisode)
  ∧ ∃ chk st' panel,
      checkAnswer st (trim guessInput) = Ok chk
      ∧ submitGuess st guessInput guessSeason guessEpisode
        = Ok (st', Some panel)
      ∧ (not_supplied guessSeason →
         Forall (λ n, is_season_note n = false) (bonusResult panel)
         ∧ roundPoints st'
           = ((if correct chk then roundPoints st else 0)
              + (if guess_matches guessEpisode (EpisodeNumber (Episode sc))
                 then bonus_episode (bonusPoints CONFIG) else 0))%Z)
      ∧ (not_supplied guessEpisode →
         Forall (λ n, is_episode_note n = false) (bonusResult panel)
         ∧ roundPoints st'
           = ((if correct chk then roundPoints st else 0)
              + (if guess_matches guessSeason (Season (Episode sc))
                 then bonus_season (bonusPoints CONFIG) else 0))%Z)
      ∧ (not_supplied guessSeason → not_supplied guessEpisode →
         bonusResult panel = []
         ∧ roundPoints st' = (if correct chk then roundPoints st else 0)%Z).
Proof.
  intros Hsc Hg Hne.
  split; [by left|]. split; [apply supplied_false|].
  split; [apply supplied_false|].
  destruct (checkAnswer_returns st sc (trim guessInput) Hsc)
    as (chk & sim & Hchk & _ & _).
  destruct (submitGuess_accepted st sc guessInput guessSeason guessEpisode
              chk Hsc Hg Hne Hchk)
    as (st' & panel & Hsub & _ & _ & _ & Hpts & Hnotes & _).
  unfold base_points in Hpts.
  exists chk, st', panel. do 2 (split; [done|]).
  split; [|split].
  - intros Hs. rewrite Hnotes, Hpts.
    rewrite (structured_bonus_not_supplied guessSeason) by done.
    rewrite structured_bonus_points. simpl.
    split; [apply episode_block_notes | lia].
  - intros He. rewrite Hnotes, Hpts.
    rewrite (structured_bonus_not_supplied guessEpisode) by done.
    rewrite structured_bonus_points. simpl. rewrite app_nil_r.
    split; [apply season_block_notes | lia].
  - intros Hs He. rewrite Hnotes, Hpts.
    rewrite (structured_bonus_not_supplied guessSeason) by done.
    rewrite (structured_bonus_not_supplied guessEpisode) by done.
    simpl. split; [done | lia].
Qed.

Lemma unsupplied_structured_guess_witness :
  ∃ st' panel,
    submitGuess (playing smoke 70) (js "The Crepes of Wrath") (js "0") (js "x")
    = Ok (st', Some panel)
    ∧ bonusResult panel = [] ∧ roundPoints st' = 70%Z.
Proof.
  destruct (unsupplied_structured_guess (playing smoke 70) smoke
              (js "The Crepes of Wrath") (js "0") (js "x"))
    as (_ & _ & _ & chk & st' & panel & Hchk & Hsub & _ & _ & Hboth).
  - reflexivity.
  - reflexivity.
  - vm_compute. discriminate.
  - exists st', panel. split; [exact Hsub|].
    destruct Hboth as [Hnotes Hpts].
    + right. vm_compute. reflexivity.
    + left. vm_compute. reflexivity.
    + split; [exact Hnotes|]. rewrite Hpts.
      vm_compute in Hchk. injection Hchk as <-. reflexivity.
Defined.

(** A zero is dropped without a mismatch note, unlike any other wrong
    number. *)
Example zero_leaves_no_note :
  ∃ st0 p0 st9 p9,
    submitGuess (playing smoke 70) (js "x") (js "0") (js "") = Ok (st0, Some p0)
    ∧ bonusResult p0 = []
    ∧ submitGuess (playing smoke 70) (js "x") (js "9") (js "") = Ok (st9, Some p9)
    ∧ bonusResult p9 = [SeasonMismatch 9 1].
Proof. eexists _, _, _, _. vm_compute. auto. Qed.

(** ** The session average *)

Lemma step_rounds st ev :
  (0 ≤ roundsPlayed st)%Z →
  (0 ≤ roundsPlayed (fst (step st ev)))%Z
  ∧ ∀ panel, snd (step st ev) = Some panel → average_defined panel.
Proof.
  intros H0. destruct ev as [lo hi|sc| |h|g s e]; simpl; try done.
  - split; [|done]. unfold revealHint. by destruct (_ || _).
  - destruct (guessed st) eqn:Hg.
    { unfold submitGuess. by rewrite Hg. }
    destruct (decide (trim g = [])) as [He|Hne].
    { unfold submitGuess. by rewrite Hg, decide_True. }
    destruct (scene st) as [sc|] eqn:Hsc.
    + destruct (checkAnswer_returns st sc (trim g) Hsc)
        as (chk & sim & Hchk & _ & _).
      destruct (submitGuess_accepted st sc g s e chk Hsc Hg Hne Hchk)
        as (st' & panel & -> & Hpanel & _ & _ & _ & _ & _ & Hrounds).
      simpl. split; [lia|]. intros ? [= <-]. rewrite Hpanel.
      unfold average_defined, showResult, js_div. simpl.
      destruct (Z.eqb_spec (roundsPlayed st') 0); [lia|]. split; [lia|done].
    + unfold submitGuess, checkAnswer. rewrite Hg, decide_False, Hsc by done.
      done.
Qed.

Lemma run_rounds events st :
  (0 ≤ roundsPlayed st)%Z → Forall average_defined (snd (run st events)).
Proof.
  revert st. induction events as [|ev events IH]; intros st H0; simpl.
  - constructor.
  - destruct (step_rounds st ev H0) as [Hst Hpanel].
    destruct (step st ev) as [st' shown]. simpl in *.
    specialize (IH st' Hst). destruct (run st' events) as [final panels].
    simpl in *. apply Forall_app. split; [|done].
    destruct shown as [panel|]; simpl; [|constructor].
    constructor; [by apply Hpanel | constructor].
Qed.

(** [startNewRound], run without interruption, is two of the events. *)
Lemma startNewRound_as_events st seasonMin seasonMax responses :
  startNewRound st seasonMin seasonMax responses
  = fst (run st
           [RoundRequested seasonMin seasonMax;
            match fst (getValidScene
                         (startNewRound_begin st seasonMin seasonMax)
                         responses) with
            | Ok sc => SceneAcquired sc
            | Throw _ => AcquisitionFailed
            end]).
Proof.
  unfold startNewRound.
  destruct (getValidScene _ responses) as [[sc|e] fetches]; reflexivity.
Qed.

(** C9. The session average is never computed with [roundsPlayed] equal to
    0: in every execution from the initial state, each result panel that is
    shown (the only place where the average is evaluated) divides by a
    [roundsPlayed] of 1 at least, because [submitGuess] has incremented it
    before [showResult] runs. *)
Theorem average_never_divides_by_zero (events : list Event) :
  Forall average_defined (snd (run initial_state events)).
Proof. apply run_rounds. simpl. lia. Qed.

(** The specification's session: rounds worth 80 and 40 points give a total
    of 120 points over 2 rounds, and an average of 60. *)
Example session_of_two_rounds :
  ∃ final p1 p2,
    run initial_state
      [SceneAcquired smoke; HintClicked season;
       GuessSubmitted (js "the crepes of wrath") (js "") (js "");
       SceneAcquired smoke; HintClicked season; HintClicked episodeNumber;
       GuessSubmitted (js "crepes of wrath") (js "") (js "")]
    = (final, [p1; p2])
    ∧ roundScoreResult p1 = 80%Z ∧ roundScoreResult p2 = 40%Z
    ∧ sessionTotal p2 = 120%Z ∧ sessionRounds p2 = 2%Z
    ∧ ∃ avg, sessionAvg p2 = Some avg ∧ (avg == 60)%Q.
Proof.
  eexists _, _, _. split; [vm_compute; reflexivity|].
  vm_compute. repeat split. eexists. split; reflexivity.
Qed.

(* ================================================================= *)
(** * Further properties *)

(** ** The distance as a metric *)

Lemma edit_script_zero a b : edit_script a b 0 → a = b.
Proof.
  remember 0 as n eqn:En. induction 1; try done. f_equal. auto.
Qed.

Lemma edit_script_refl a : edit_script a a 0.
Proof. induction a; by constructor. Qed.

Lemma edit_script_lengths a b n :
  edit_script a b n → length a ≤ length b + n ∧ length b ≤ length a + n.
Proof. induction 1; simpl; lia. Qed.

(** Two scripts in a row are matched by one script that costs no more. *)
Lemma edit_script_compose a b n :
  edit_script a b n →
  ∀ c m, edit_script b c m → ∃ k, k ≤ n + m ∧ edit_script a c k.
Proof.
  induction 1 as [|x a b n _ IH|x y a b n _ IH|x a b n _ IH|y a b n H1 IH].
  - intros c m H2. exists m. split; [lia|done].
  - intros c m H2. remember (x :: b) as t eqn:Et. revert Et.
    induction H2 as [|z t c m H2 _|z w t c m H2 _|z t c m H2 _|w t c m H2 IH2];
      intros Et.
    + done.
    + injection Et as -> ->. destruct (IH c m H2) as (k & Hk & Hs).
      exists k. split; [lia|by constructor].
    + injection Et as -> ->. destruct (IH c m H2) as (k & Hk & Hs).
      exists (S k). split; [lia|by constructor].
    + injection Et as -> ->. destruct (IH c m H2) as (k & Hk & Hs).
      exists (S k). split; [lia|by constructor].
    + destruct (IH2 Et) as (k & Hk & Hs).
      exists (S k). split; [lia|by constructor].
  - intros c m H2. remember (y :: b) as t eqn:Et. revert Et.
    induction H2 as [|z t c m H2 _|z w t c m H2 _|z t c m H2 _|w t c m H2 IH2];
      intros Et.
    + done.
    + injection Et as -> ->. destruct (IH c m H2) as (k & Hk & Hs).
      exists (S k). split; [lia|by constructor].
    + injection Et as -> ->. destruct (IH c m H2) as (k & Hk & Hs).
      exists (S k). split; [lia|by constructor].
    + injection Et as -> ->. destruct (IH c m H2) as (k & Hk & Hs).
      exists (S k). split; [lia|by constructor].
    + destruct (IH2 Et) as (k & Hk & Hs).
      exists (S k). split; [lia|by constructor].
  - intros c m H2. destruct (IH c m H2) as (k & Hk & Hs).
    exists (S k). split; [lia|by constructor].
  - intros c m H2. remember (y :: b) as t eqn:Et. revert Et.
    induction H2 as [|z t c m H2 _|z w t c m H2 _|z t c m H2 _|w t c m H2 IH2];
      intros Et.
    + done.
    + injection Et as -> ->. destruct (IH c m H2) as (k & Hk & Hs).
      exists (S k). split; [lia|by constructor].
    + injection Et as -> ->. destruct (IH c m H2) as (k & Hk & Hs).
      exists (S k). split; [lia|by constructor].
    + injection Et as -> ->. destruct (IH c m H2) as (k & Hk & Hs).
      exists k. split; [lia|done].
    + destruct (IH2 Et) as (k & Hk & Hs).
      exists (S k). split; [lia|by constructor].
Qed.

Lemma lev_spec_zero a b : lev_spec a b = 0 ↔ a = b.
Proof.
  split.
  - intros H. apply edit_script_zero. rewrite <-H. apply lev_spec_script.
  - intros ->. pose proof (lev_spec_least b b 0 (edit_script_refl b)). lia.
Qed.

Lemma lev_spec_triangle a b c : lev_spec a c ≤ lev_spec a b + lev_spec b c.
Proof.
  destruct (edit_script_compose a b _ (lev_spec_script a b) c _
              (lev_spec_script b c)) as (k & Hk & Hs).
  apply lev_spec_least in Hs. lia.
Qed.

(** X2. [levenshteinDistance] answers 0 exactly on equal strings. *)
Theorem levenshteinDistance_zero (a b : jsstring) :
  levenshteinDistance a b = Ok 0 ↔ a = b.
Proof.
  rewrite levenshteinDistance_correct. split.
  - intros [= H]. by apply lev_spec_zero.
  - intros H. f_equal. by apply lev_spec_zero.
Qed.

(** X3. The triangle inequality: going from [a] to [c] never costs more than
    going through any third string [b]. *)
Theorem levenshteinDistance_triangle (a b c : jsstring) :
  ∃ ac ab bc,
    levenshteinDistance a c = Ok ac ∧ levenshteinDistance a b = Ok ab
    ∧ levenshteinDistance b c = Ok bc ∧ ac ≤ ab + bc.
Proof.
  exists (lev_spec a c), (lev_spec a b), (lev_spec b c).
  rewrite !levenshteinDistance_correct. repeat split.
  apply lev_spec_triangle.
Qed.

(** X4. The distance lies between the difference of the two lengths and the
    greater length; against the empty string it is the other string's
    length. *)
Theorem levenshteinDistance_bounds (a b : jsstring) :
  ∃ d,
    levenshteinDistance a b = Ok d
    ∧ length a - length b ≤ d ∧ length b - length a ≤ d
    ∧ d ≤ length a `max` length b
    ∧ levenshteinDistance [] b = Ok (length b)
    ∧ levenshteinDistance a [] = Ok (length a).
Proof.
  exists (lev_spec a b). rewrite !levenshteinDistance_correct.
  destruct (edit_script_lengths a b _ (lev_spec_script a b)) as [H1 H2].
  pose proof (lev_spec_bound a b).
  rewrite lev_spec_nil_r. repeat split; lia.
Qed.

(** X1. For any two strings [levenshteinDistance] stays inside its table and
    returns the cost of some edit script, and no edit script is cheaper. *)
Theorem levenshteinDistance_least_script (a b : jsstring) :
  ∃ d,
    levenshteinDistance a b = Ok d
    ∧ edit_script a b d
    ∧ ∀ n, edit_script a b n → d ≤ n.
Proof.
  exists (lev_spec a b). rewrite levenshteinDistance_correct.
  split; [done|]. split; [apply lev_spec_script | apply lev_spec_least].
Qed.

(** ** What the normalizer lets through *)

Lemma normalizeString_unfold s :
  normalizeString s = trim (replace_runs is_ws [space] (strip_lower s)).
Proof. reflexivity. Qed.

Lemma strip_lower_cons c s : strip_lower (c :: s) = strip_lower [c] ++ strip_lower s.
Proof. apply (strip_lower_app [c] s). Qed.

Lemma strip_lower_unit_length c : length (strip_lower [c]) ≤ 1.
Proof.
  unfold strip_lower. rewrite !replace_class_self.
  unfold toLowerCase, replace_class, lower_unit. simpl.
  repeat (case_match; simpl; try lia).
Qed.

Lemma strip_lower_length s : length (strip_lower s) ≤ length s.
Proof.
  induction s as [|c s IH]; [done|].
  rewrite strip_lower_cons, length_app. simpl.
  pose proof (strip_lower_unit_length c). lia.
Qed.

Lemma replace_runs_length p c s : length (replace_runs p [c] s) ≤ length s.
Proof.
  induction s as [|x s IH]; [done|]. simpl.
  destruct (p x); simpl; [|lia].
  destruct s as [|y s]; [simpl; lia|].
  destruct (p y); simpl in *; lia.
Qed.

Lemma trimStart_length s : length (trimStart s) ≤ length s.
Proof.
  induction s as [|c s IH]; [done|]. simpl. destruct (is_ws c); simpl; lia.
Qed.

Lemma trimEnd_length s : length (trimEnd s) ≤ length s.
Proof.
  induction s as [|c s IH]; [done|]. simpl.
  destruct (trimEnd s); [destruct (is_ws c)|]; simpl in *; lia.
Qed.

(** X8. A normalized string holds lower-case ASCII letters, digits and
    spaces only, with no two spaces in a row and none at either end, and it
    is never longer than the string it comes from. *)
Theorem normalizeString_output (s : jsstring) :
  Forall (λ c, normal_unit c = true) (normalizeString s)
  ∧ single_spaced (normalizeString s)
  ∧ starts_clean (normalizeString s)
  ∧ ends_ws false (normalizeString s) = false
  ∧ length (normalizeString s) ≤ length s.
Proof.
  destruct (normalizeString_shape s) as (H1 & H2 & H3).
  repeat (split; [done|]). split.
  - unfold normalizeString, trim.
    destruct (trimEnd _) as [|c t] eqn:E; [done|].
    rewrite <-E. apply trimEnd_ends. by rewrite E.
  - rewrite normalizeString_unfold. unfold trim.
    pose proof (trimEnd_length
                  (trimStart (replace_runs is_ws [space] (strip_lower s)))).
    pose proof (trimStart_length (replace_runs is_ws [space] (strip_lower s))).
    pose proof (replace_runs_length is_ws space (strip_lower s)).
    pose proof (strip_lower_length s). lia.
Qed.

Lemma strip_lower_capital c :
  is_AZ c = true → strip_lower [c] = strip_lower [(c + 32)%N].
Proof.
  intros H. unfold strip_lower. rewrite !replace_class_self.
  unfold toLowerCase, replace_class, lower_unit, is_AZ in *. simpl.
  rewrite H. simpl.
  replace ((65 <=? c + 32) && (c + 32 <=? 90))%N with false by (symmetry; units).
  replace ((192 <=? c + 32) && (c + 32 <=? 222))%N with false
    by (symmetry; units).
  simpl.
  replace (c + 32 =? 304)%N with false by (symmetry; units).
  replace (c + 32 =? 8490)%N with false by (symmetry; units).
  done.
Qed.

Lemma strip_lower_other c : is_ascii_other c = true → strip_lower [c] = [].
Proof.
  intros H. unfold strip_lower. rewrite !replace_class_self.
  unfold is_ascii_other, is_AZ in H.
  apply andb_true_iff in H as [Hlt H]. apply negb_true_iff in H.
  apply orb_false_iff in H as [H Hw]. apply orb_false_iff in H as [H H9].
  apply orb_false_iff in H as [HAZ Haz]. apply N.ltb_lt in Hlt.
  unfold toLowerCase, replace_class, lower_unit. simpl. rewrite HAZ.
  replace ((192 <=? c) && (c <=? 222))%N with false by (symmetry; units).
  simpl.
  replace (c =? 304)%N with false by (symmetry; units).
  replace (c =? 8490)%N with false by (symmetry; units).
  simpl. by rewrite Haz, H9, Hw.
Qed.

Lemma similarity_normal a a' b :
  normalizeString a = normalizeString a' → similarity a b = similarity a' b.
Proof. intros H. by rewrite !similarity_value, H. Qed.

(** X7. The score does not see white space around the guess, the case of
    ASCII letters, or ASCII punctuation: trimming the text, lowering a
    capital or deleting a punctuation mark anywhere in it leaves
    [similarity] as it is. *)
Theorem similarity_insensitive (s t title : jsstring) (c : N) :
  similarity (trim s) title = similarity s title
  ∧ (is_AZ c = true →
     similarity (s ++ c :: t) title = similarity (s ++ (c + 32)%N :: t) title)
  ∧ (is_ascii_other c = true →
     similarity (s ++ c :: t) title = similarity (s ++ t) title).
Proof.
  split; [apply similarity_normal, normalizeString_trim|]. split.
  - intros H. apply similarity_normal. rewrite !normalizeString_unfold.
    rewrite !strip_lower_app, (strip_lower_cons c), (strip_lower_cons (c + 32)).
    by rewrite (strip_lower_capital c H).
  - intros H. apply similarity_normal. rewrite !normalizeString_unfold.
    rewrite !strip_lower_app, (strip_lower_cons c).
    by rewrite (strip_lower_other c H).
Qed.

Lemma similarity_insensitive_witness :
  similarity (js "Bart" ++ 33%N :: js " the GENIUS") (js "bart the genius")
  = similarity (js "Bart" ++ js " the GENIUS") (js "bart the genius")
  ∧ similarity (js "Bart the " ++ 71%N :: js "enius") (js "bart the genius")
    = similarity (js "Bart the " ++ 103%N :: js "enius") (js "bart the genius").
Proof.
  split.
  - apply (similarity_insensitive (js "Bart") (js " the GENIUS")
             (js "bart the genius") 33). reflexivity.
  - apply (similarity_insensitive (js "Bart the ") (js "enius")
             (js "bart the genius") 71). reflexivity.
Defined.

(** ** The score and the verdict as integer facts *)

Lemma ratio_threshold (d m : nat) :
  m ≠ 0 →
  (3 # 4 <= 1 - inject_Z (Z.of_nat d) / inject_Z (Z.of_nat m))%Q ↔ 4 * d ≤ m.
Proof.
  intros Hm.
  assert (0 < inject_Z (Z.of_nat m))%Q as Hpos.
  { rewrite <-(Zlt_Qlt 0). lia. }
  assert (¬ (inject_Z (Z.of_nat m) == 0)%Q) as Hnz by lra.
  pose proof (Qmult_div_r (inject_Z (Z.of_nat d)) _ Hnz) as Hx.
  set (x := (inject_Z (Z.of_nat d) / inject_Z (Z.of_nat m))%Q) in *.
  assert ((4 * Z.of_nat d ≤ Z.of_nat m)%Z
          ↔ (4 * inject_Z (Z.of_nat d) <= inject_Z (Z.of_nat m))%Q) as Hz.
  { rewrite Zle_Qle, inject_Z_mult. reflexivity. }
  split.
  - intros H. apply Nat2Z.inj_le. rewrite Nat2Z.inj_mul. apply Hz.
    rewrite <-Hx. nra.
  - intros H. apply Nat2Z.inj_le in H. rewrite Nat2Z.inj_mul in H.
    apply Hz in H. rewrite <-Hx in H. nra.
Qed.

Lemma ratio_below_one (d m : nat) :
  d ≠ 0 → m ≠ 0 →
  ¬ (1 - inject_Z (Z.of_nat d) / inject_Z (Z.of_nat m) == 1)%Q.
Proof.
  intros Hd Hm H.
  assert (0 < inject_Z (Z.of_nat m))%Q as Hpos.
  { rewrite <-(Zlt_Qlt 0). lia. }
  assert (0 < inject_Z (Z.of_nat d))%Q as Hdpos.
  { rewrite <-(Zlt_Qlt 0). lia. }
  assert (0 < inject_Z (Z.of_nat d) / inject_Z (Z.of_nat m))%Q.
  { apply Qlt_shift_div_l; [done|]. by rewrite Qmult_0_l. }
  lra.
Qed.

(** X5. The score is 1 exactly when the two strings normalize to the same
    string; any difference that survives normalization costs something. *)
Theorem similarity_one_iff (a b : jsstring) :
  ∃ q, similarity a b = Ok q
       ∧ ((q == 1)%Q ↔ normalizeString a = normalizeString b).
Proof.
  eexists. split; [apply similarity_value|].
  destruct (decide (normalizeString a = normalizeString b)) as [E|Hne].
  - split; [done|reflexivity].
  - split; [|done]. intros H. exfalso. revert H. apply ratio_below_one.
    + by rewrite lev_spec_zero.
    + by apply max_length_pos.
Qed.

(** X6. With the threshold of 0.75 a guess is judged correct exactly when
    the Levenshtein distance of the normalized guess and title is at most a
    quarter of the longer of the two lengths; [checkAnswer] also hands back
    the scene's title. *)
Theorem checkAnswer_quarter (st : State) (sc : Scene) (guess : jsstring) :
  scene st = Some sc →
  ∃ chk d,
    checkAnswer st guess = Ok chk
    ∧ actualTitle chk = Title (Episode sc)
    ∧ is_edit_distance (normalizeString guess)
        (normalizeString (Title (Episode sc))) d
    ∧ (correct chk = true
       ↔ 4 * d ≤ length (normalizeString guess)
                 `max` length (normalizeString (Title (Episode sc)))).
Proof.
  intros Hsc. unfold checkAnswer. rewrite Hsc, similarity_value, bind_Ok.
  eexists _, _. split; [done|]. split; [done|].
  split; [apply lev_spec_is_edit_distance|]. simpl.
  rewrite Qle_bool_iff.
  destruct (decide (normalizeString guess
                    = normalizeString (Title (Episode sc)))) as [E|Hne].
  - rewrite (proj2 (lev_spec_zero _ _) E).
    split; [lia|]. intros _. unfold Qle. simpl. lia.
  - apply ratio_threshold. by apply max_length_pos.
Qed.

Lemma checkAnswer_quarter_witness :
  ∃ chk d,
    checkAnswer (playing smoke 100) (js "crepes of wrath") = Ok chk
    ∧ actualTitle chk = Title (Episode smoke)
    ∧ is_edit_distance (normalizeString (js "crepes of wrath"))
        (normalizeString (Title (Episode smoke))) d
    ∧ (correct chk = true
       ↔ 4 * d ≤ length (normalizeString (js "crepes of wrath"))
                 `max` length (normalizeString (Title (Episode smoke)))).
Proof.
  apply (checkAnswer_quarter (playing smoke 100) smoke (js "crepes of wrath")).
  reflexivity.
Defined.

(** ** The validator, completely *)

Lemma split_ws_nil : split_ws [] = [[]].
Proof. reflexivity. Qed.

(** What an accepted scene must be. *)
Lemma isValidQuote_requires st sc :
  isValidQuote st sc = true →
  season_in_range st sc
  ∧ minQuoteWords CONFIG ≤ word_count (getQuoteText sc)
  ∧ startsWith (trim (getQuoteText sc)) left_bracket = false
  ∧ 2 * bracketed_length (getQuoteText sc) ≤ length (getQuoteText sc).
Proof.
  intros H.
  destruct (decide (season_in_range st sc)) as [Hin|Hout];
    [|by rewrite isValidQuote_outside in H].
  split; [done|]. unfold isValidQuote in H.
  destruct (_ || _)%Z; [done|].
  destruct (decide (getQuoteText sc = [])); [done|].
  destruct (length (split_ws (trim (getQuoteText sc))) <? minQuoteWords CONFIG)
    eqn:Hwords; [done|].
  apply Nat.ltb_ge in Hwords.
  destruct (startsWith (trim (getQuoteText sc)) left_bracket); [done|].
  assert (trim (getQuoteText sc) ≠ []) as Htrim.
  { intros E. rewrite E, split_ws_nil in Hwords. simpl in Hwords. lia. }
  rewrite split_ws_trim_length in Hwords by done.
  split; [done|]. split; [done|]. unfold bracketed_length.
  destruct (bracketed (getQuoteText sc)) as [|m ms]; [simpl; lia|].
  destruct (length (getQuoteText sc) <? _) eqn:Hbr; [done|].
  apply Nat.ltb_ge in Hbr. lia.
Qed.

(** X9. The validator accepts a scene exactly when its season lies inside
    the range, its quote has [minQuoteWords] words or more, the trimmed
    quote does not start with a left bracket, and the bracketed spans hold
    at most half of the quote's code units. *)
Theorem isValidQuote_iff (st : State) (sc : Scene) :
  isValidQuote st sc = true
  ↔ season_in_range st sc
    ∧ minQuoteWords CONFIG ≤ word_count (getQuoteText sc)
    ∧ startsWith (trim (getQuoteText sc)) left_bracket = false
    ∧ 2 * bracketed_length (getQuoteText sc) ≤ length (getQuoteText sc).
Proof.
  split; [apply isValidQuote_requires|].
  intros (H1 & H2 & H3 & H4). by apply isValidQuote_accepts.
Qed.

Lemma count_words_app_space pw a b :
  count_words pw (a ++ space :: b) = count_words pw a + count_words true b.
Proof.
  revert pw. induction a as [|c a IH]; intros pw; [done|].
  simpl. destruct (is_ws c); rewrite IH; lia.
Qed.

Lemma word_count_join parts :
  word_count (join [space] parts) = sum_list (map word_count parts).
Proof.
  unfold word_count. induction parts as [|s parts IH]; [done|].
  destruct parts as [|t parts].
  - simpl. lia.
  - change (join [space] (s :: t :: parts))
      with (s ++ space :: join [space] (t :: parts)).
    rewrite count_words_app_space, IH. reflexivity.
Qed.

(** X10. The quote is the subtitles joined by single spaces, so its word
    count is the sum of the subtitles' word counts; a scene whose subtitles
    are missing or empty has the empty quote and is rejected whatever the
    season range. *)
Theorem quote_of_subtitles (st : State) (sc : Scene) :
  getQuoteText sc = join [space] (subtitle_texts sc)
  ∧ word_count (getQuoteText sc) = sum_list (map word_count (subtitle_texts sc))
  ∧ (subtitle_texts sc = [] →
     getQuoteText sc = [] ∧ isValidQuote st sc = false).
Proof.
  assert (getQuoteText sc = join [space] (subtitle_texts sc)) as Hq.
  { unfold getQuoteText, subtitle_texts.
    by destruct (Subtitles sc) as [[|sub subs]|]. }
  split; [done|]. split; [by rewrite Hq, word_count_join|].
  intros Hnone. rewrite Hnone in Hq. simpl in Hq. split; [done|].
  destruct (isValidQuote st sc) eqn:Hv; [|done].
  apply isValidQuote_requires in Hv as (_ & Hw & _).
  rewrite Hq in Hw. vm_compute in Hw. lia.
Qed.

Lemma match_brackets_spans pending s :
  match pending with
  | Some body => right_bracket ∉ body
  | None => True
  end →
  Forall is_span (match_brackets pending s)
  ∧ length (concat (match_brackets pending s))
    ≤ length s + match pending with
                 | Some body => S (length body)
                 | None => 0
                 end.
Proof.
  revert pending. induction s as [|c s IH]; intros pending Hp.
  { simpl. split; [constructor | lia]. }
  destruct pending as [body|]; simpl.
  - destruct (N.eqb_spec c right_bracket) as [->|Hc].
    + destruct (IH None I) as [IH1 IH2]. destruct body as [|b body].
      * split; [done | simpl in *; lia].
      * split.
        -- constructor; [|done]. exists (rev (b :: body)).
           split; [done|]. split.
           ++ intros E. apply (f_equal length) in E.
              rewrite length_rev in E. done.
           ++ intros H. apply Hp. apply list_elem_of_In, in_rev.
              by apply list_elem_of_In.
        -- simpl in *. rewrite !length_app, length_rev in *. simpl in *. lia.
    + destruct (IH (Some (c :: body))) as [IH1 IH2].
      { intros [E|E]%elem_of_cons; [by apply Hc | by apply Hp]. }
      split; [done | simpl in *; lia].
  - destruct (c =? left_bracket)%N.
    + destruct (IH (Some [])) as [IH1 IH2]; [apply not_elem_of_nil|].
      split; [done | simpl in *; lia].
    + destruct (IH None I) as [IH1 IH2]. split; [done | simpl in *; lia].
Qed.

(** X11. Every span that the validator counts is a left bracket, one code
    unit or more other than a right bracket, and a right bracket; the spans
    together are never longer than the quote. *)
Theorem bracketed_spans_wf (s : jsstring) :
  Forall is_span (bracketed s) ∧ bracketed_length s ≤ length s.
Proof.
  destruct (match_brackets_spans None s I) as [H1 H2].
  split; [done|]. unfold bracketed_length, bracketed. lia.
Qed.

(** ** Every way the acquisition loop can end *)

Lemma getValidScene_loop_outcome st responses budget attempts :
  attempts ≤ snd (getValidScene_loop st responses budget attempts)
  ∧ snd (getValidScene_loop st responses budget attempts) ≤ attempts + budget
  ∧ (∀ j, attempts ≤ j →
          S j < snd (getValidScene_loop st responses budget attempts) →
          rejected_at st responses j)
  ∧ match fst (getValidScene_loop st responses budget attempts) with
    | Ok sc =>
        ∃ k, snd (getValidScene_loop st responses budget attempts) = S k
             ∧ attempts ≤ k
             ∧ responses k = Ok sc ∧ isValidQuote st sc = true
    | Throw e =>
        (∃ k, snd (getValidScene_loop st responses budget attempts) = S k
              ∧ attempts ≤ k ∧ responses k = Throw e)
        ∨ (e = NoValidSceneFound
           ∧ snd (getValidScene_loop st responses budget attempts)
             = attempts + budget
           ∧ ∀ j, attempts ≤ j < attempts + budget →
                  rejected_at st responses j)
    end.
Proof.
  revert attempts. induction budget as [|budget IH]; intros attempts; simpl.
  - repeat split; try lia. right. repeat split; lia.
  - destruct (responses attempts) as [sc|e] eqn:Hr; simpl.
    + destruct (isValidQuote st sc) eqn:Hv; simpl.
      * repeat split; try lia. exists attempts. by repeat split.
      * destruct (IH (S attempts)) as (H1 & H2 & H3 & H4).
        split; [lia|]. split; [lia|]. split.
        -- intros j Hj1 Hj2. destruct (decide (j = attempts)) as [->|Hne].
           ++ by exists sc.
           ++ apply H3; lia.
        -- destruct (fst (getValidScene_loop st responses budget (S attempts)))
             as [sc'|e'].
           ++ destruct H4 as (k & Hk1 & Hk2 & Hk3 & Hk4). exists k.
              split; [done|]. split; [lia|]. done.
           ++ destruct H4 as [(k & Hk1 & Hk2 & Hk3)|(He & Hn & Hall)].
              ** left. exists k. split; [done|]. split; [lia|]. done.
              ** right. split; [done|]. split; [lia|].
                 intros j Hj. destruct (decide (j = attempts)) as [->|Hne].
                 --- by exists sc.
                 --- apply Hall. lia.
    + repeat split; try lia. left. exists attempts. by repeat split.
Qed.

(** X12. However the provider answers, the loop makes between 1 and 50
    fetches, every candidate before the last fetch was rejected, and it ends
    in one of three ways: with the last candidate, which the validator
    accepts; with the failure of the last fetch; or with
    [NoValidSceneFound] after 50 rejected candidates. A scene that fails the
    validator is never returned. *)
Theorem getValidScene_outcome (st : State) (responses : nat → result Scene) :
  ∃ k,
    snd (getValidScene st responses) = S k ∧ k < 50
    ∧ (∀ j, j < k → rejected_at st responses j)
    ∧ match fst (getValidScene st responses) with
      | Ok sc => responses k = Ok sc ∧ isValidQuote st sc = true
      | Throw e =>
          responses k = Throw e
          ∨ (e = NoValidSceneFound ∧ k = 49 ∧ rejected_at st responses 49)
      end.
Proof.
  unfold getValidScene, maxAttempts.
  destruct (getValidScene_loop_outcome st responses 50 0) as (H1 & H2 & H3 & H4).
  destruct (fst (getValidScene_loop st responses 50 0)) as [sc|e].
  - destruct H4 as (k & Hk & _ & Hr & Hv). exists k. rewrite Hk in *.
    split; [done|]. split; [lia|]. split; [|done].
    intros j Hj. apply H3; lia.
  - destruct H4 as [(k & Hk & _ & Hr)|(He & Hn & Hall)].
    + exists k. rewrite Hk in *. split; [done|]. split; [lia|].
      split; [|by left]. intros j Hj. apply H3; lia.
    + exists 49. rewrite Hn in *. split; [done|]. split; [lia|].
      split; [intros j Hj; apply Hall; lia|].
      right. split; [done|]. split; [done|]. apply Hall. lia.
Qed.

(** X13. A fetch that fails ends the acquisition at once with that failure:
    no further fetch is made. *)
Theorem getValidScene_fetch_failure (st : State)
    (responses : nat → result Scene) (k : nat) (e : error) :
  k < 50 →
  (∀ j, j < k → rejected_at st responses j) →
  responses k = Throw e →
  getValidScene st responses = (Throw e, S k).
Proof.
  intros Hk Hrej Hresp. unfold getValidScene, maxAttempts.
  replace 50 with (k + S (49 - k)) by lia.
  rewrite getValidScene_loop_skip by done. simpl. by rewrite Hresp.
Qed.

Lemma getValidScene_fetch_failure_witness :
  getValidScene initial_state
    (λ k, if k <? 1 then Ok grunting else Throw FetchFailed)
  = (Throw FetchFailed, 2).
Proof.
  apply (getValidScene_fetch_failure initial_state
           (λ k, if k <? 1 then Ok grunting else Throw FetchFailed) 1).
  - lia.
  - intros j Hj. exists grunting. destruct j; [by vm_compute|lia].
  - reflexivity.
Defined.

(** ** The season range, and rounds that cannot start *)

(** X14. Whatever the two fields hold, the lower end of the range is 1 at
    least and the upper end 20 at most; the ends are in order exactly when
    the two numbers read (after the defaults 1 and 9) are not both above 20
    and not both below 1; fields that are empty, not numeric or zero give
    the range 1..9; and two supplied fields may be typed in either order. *)
Theorem getSeasonRange_shape (seasonMin seasonMax : jsstring) :
  (1 ≤ range_min (getSeasonRange seasonMin seasonMax))%Z
  ∧ (range_max (getSeasonRange seasonMin seasonMax) ≤ 20)%Z
  ∧ ((range_min (getSeasonRange seasonMin seasonMax)
      ≤ range_max (getSeasonRange seasonMin seasonMax))%Z
     ↔ (Z.min (or_default (parseInt seasonMin) 1)
          (or_default (parseInt seasonMax) 9) ≤ 20
        ∧ 1 ≤ Z.max (or_default (parseInt seasonMin) 1)
                (or_default (parseInt seasonMax) 9))%Z)
  ∧ (not_supplied seasonMin → not_supplied seasonMax →
     getSeasonRange seasonMin seasonMax = {| range_min := 1; range_max := 9 |})
  ∧ (supplied seasonMin = true → supplied seasonMax = true →
     getSeasonRange seasonMax seasonMin = getSeasonRange seasonMin seasonMax).
Proof.
  unfold getSeasonRange. simpl.
  split; [lia|]. split; [lia|]. split; [lia|]. split.
  - by intros [-> | ->] [-> | ->].
  - unfold supplied, truthy, or_default.
    destruct (parseInt seasonMin) as [lo|]; [|done].
    destruct (parseInt seasonMax) as [hi|]; [|by destruct (lo =? 0)%Z].
    destruct (lo =? 0)%Z; [done|]. destruct (hi =? 0)%Z; [done|].
    intros _ _. f_equal; lia.
Qed.

Lemma isValidQuote_inverted_range st sc :
  (range_max (seasonRange st) < range_min (seasonRange st))%Z →
  isValidQuote st sc = false.
Proof.
  intros H. apply isValidQuote_outside. unfold season_in_range. lia.
Qed.

(** X15. When the range read from the fields has its ends out of order (both
    numbers above 20, or both below 1), no scene passes the validator: as
    long as the fetches succeed, [startNewRound] spends all 50 fetches,
    fails, and leaves the previous round in place with the new range. *)
Theorem startNewRound_inverted_range (st : State)
    (seasonMin seasonMax : jsstring) (responses : nat → result Scene) :
  (range_max (getSeasonRange seasonMin seasonMax)
   < range_min (getSeasonRange seasonMin seasonMax))%Z →
  (∀ j, j < 50 → ∃ sc, responses j = Ok sc) →
  getValidScene (startNewRound_begin st seasonMin seasonMax) responses
  = (Throw NoValidSceneFound, 50)
  ∧ startNewRound st seasonMin seasonMax responses
    = startNewRound_begin st seasonMin seasonMax
  ∧ scene (startNewRound st seasonMin seasonMax responses) = scene st.
Proof.
  intros Hinv Hfetch.
  assert (getValidScene (startNewRound_begin st seasonMin seasonMax) responses
          = (Throw NoValidSceneFound, 50)) as Hget.
  { unfold getValidScene, maxAttempts.
    refine (getValidScene_loop_skip _ responses 50 0 0 _).
    intros j Hj. destruct (Hfetch j Hj) as [sc Hsc]. exists sc.
    split; [done|]. by apply isValidQuote_inverted_range. }
  split; [done|]. unfold startNewRound. by rewrite Hget.
Qed.

Lemma startNewRound_inverted_range_witness :
  getValidScene (startNewRound_begin initial_state (js "25") (js "30"))
    (λ _, Ok smoke)
  = (Throw NoValidSceneFound, 50)
  ∧ startNewRound initial_state (js "25") (js "30") (λ _, Ok smoke)
    = startNewRound_begin initial_state (js "25") (js "30")
  ∧ scene (startNewRound initial_state (js "25") (js "30") (λ _, Ok smoke))
    = scene initial_state.
Proof.
  apply (startNewRound_inverted_range initial_state (js "25") (js "30")
           (λ _, Ok smoke)).
  - vm_compute. reflexivity.
  - intros j _. by exists smoke.
Defined.

(** X16. [startNewRound] never touches the session totals and always stores
    the range it reads. When acquisition succeeds the round restarts on a
    scene that passes the validator for that range, with the starting
    points, no hint revealed and no guess made; when it fails, the previous
    round stays as it was. *)
Theorem startNewRound_outcome (st : State) (seasonMin seasonMax : jsstring)
    (responses : nat → result Scene) :
  totalPoints (startNewRound st seasonMin seasonMax responses) = totalPoints st
  ∧ roundsPlayed (startNewRound st seasonMin seasonMax responses)
    = roundsPlayed st
  ∧ seasonRange (startNewRound st seasonMin seasonMax responses)
    = getSeasonRange seasonMin seasonMax
  ∧ match fst (getValidScene (startNewRound_begin st seasonMin seasonMax)
                 responses) with
    | Ok sc =>
        scene (startNewRound st seasonMin seasonMax responses) = Some sc
        ∧ isValidQuote (startNewRound st seasonMin seasonMax responses) sc
          = true
        ∧ roundPoints (startNewRound st seasonMin seasonMax responses)
          = startingPoints CONFIG
        ∧ revealed (startNewRound st seasonMin seasonMax responses) = ∅
        ∧ guessed (startNewRound st seasonMin seasonMax responses) = false
        ∧ won (startNewRound st seasonMin seasonMax responses) = false
    | Throw _ =>
        scene (startNewRound st seasonMin seasonMax responses) = scene st
        ∧ roundPoints (startNewRound st seasonMin seasonMax responses)
          = roundPoints st
        ∧ revealed (startNewRound st seasonMin seasonMax responses)
          = revealed st
        ∧ guessed (startNewRound st seasonMin seasonMax responses)
          = guessed st
        ∧ won (startNewRound st seasonMin seasonMax responses) = won st
    end.
Proof.
  unfold startNewRound.
  destruct (getValidScene_loop_outcome
              (startNewRound_begin st seasonMin seasonMax) responses 50 0)
    as (_ & _ & _ & H).
  change (getValidScene_loop (startNewRound_begin st seasonMin seasonMax)
            responses 50 0)
    with (getValidScene (startNewRound_begin st seasonMin seasonMax) responses)
    in H.
  destruct (getValidScene _ responses) as [[sc|e] n]; simpl in *.
  - destruct H as (k & _ & _ & _ & Hv). repeat split; try done.
  - repeat split; done.
Qed.

(** ** Hints in any order *)

Lemma hintCosts_nonneg h : (0 ≤ hintCosts CONFIG h)%Z.
Proof. destruct h; simpl; lia. Qed.

Lemma revealHint_revealed_mono st h x :
  x ∈ revealed st → x ∈ revealed (revealHint st h).
Proof.
  intros Hx. unfold revealHint. destruct (_ || _); [done|]. simpl.
  apply elem_of_union. by left.
Qed.

Lemma revealHint_guessed st h : guessed (revealHint st h) = guessed st.
Proof. unfold revealHint. by destruct (_ || _). Qed.

(** X17. Hints can be bought in any order: revealing two hints one way round
    or the other ends in the same state, and revealing a hint twice is
    revealing it once. *)
Theorem revealHint_commute (st : State) (h1 h2 : HintType) :
  revealHint (revealHint st h1) h2 = revealHint (revealHint st h2) h1
  ∧ revealHint (revealHint st h1) h1 = revealHint st h1.
Proof.
  assert (∀ h, revealHint (revealHint st h) h = revealHint st h) as Hidem.
  { intros h. destruct (guessed st) eqn:Hg.
    - by rewrite !(revealHint_noop st h) by by right.
    - destruct (decide (h ∈ revealed st)) as [Hin|Hout].
      + by rewrite !(revealHint_noop st h) by by left.
      + apply revealHint_noop. left. rewrite revealHint_fresh by done.
        simpl. apply elem_of_union. right. by apply elem_of_singleton. }
  split; [|apply Hidem].
  destruct (decide (h1 = h2)) as [->|Hne]; [done|].
  destruct (guessed st) eqn:Hg.
  { by rewrite !(revealHint_noop st) by by right. }
  destruct (decide (h1 ∈ revealed st)) as [Hin1|Hout1].
  { rewrite (revealHint_noop st h1) by by left.
    symmetry. apply revealHint_noop. left.
    by apply revealHint_revealed_mono. }
  destruct (decide (h2 ∈ revealed st)) as [Hin2|Hout2].
  { rewrite (revealHint_noop st h2) by by left.
    apply revealHint_noop. left. by apply revealHint_revealed_mono. }
  rewrite (revealHint_fresh st h1), (revealHint_fresh st h2) by done.
  rewrite !revealHint_fresh; simpl; try done.
  - f_equal.
    + destruct h1, h2; lia.
    + rewrite <-!(assoc_L (∪)). f_equal. apply (comm_L (∪)).
  - intros [?|?%elem_of_singleton]%elem_of_union; done.
  - intros [?|?%elem_of_singleton]%elem_of_union; done.
Qed.

Lemma hint_cost_total_nonneg hints : (0 ≤ hint_cost_total hints)%Z.
Proof.
  induction hints as [|h hints IH]; [done|].
  change (hint_cost_total (h :: hints))
    with (hintCosts CONFIG h + hint_cost_total hints)%Z.
  pose proof (hintCosts_nonneg h). lia.
Qed.

(** X18. Revealing several different fresh hints, in a round that is not
    guessed and has no negative points, costs their total: the points left
    are the points before minus the costs, floored at 0, and the revealed
    set gains exactly those hints. *)
Theorem revealHint_total (hints : list HintType) (st : State) :
  NoDup hints →
  (∀ h, h ∈ hints → h ∉ revealed st) →
  guessed st = false →
  (0 ≤ roundPoints st)%Z →
  roundPoints (foldl revealHint st hints)
  = Z.max 0 (roundPoints st - hint_cost_total hints)
  ∧ revealed (foldl revealHint st hints) = revealed st ∪ list_to_set hints.
Proof.
  revert st. induction hints as [|h hints IH]; intros st Hnd Hfresh Hg Hp.
  - simpl. split; [lia|]. by rewrite (right_id_L ∅ (∪)).
  - apply NoDup_cons in Hnd as [Hh Hnd].
    assert (h ∉ revealed st) as Hfr by (apply Hfresh, elem_of_cons; by left).
    pose proof (revealHint_fresh st h Hfr Hg) as Hst.
    simpl foldl. destruct (IH (revealHint st h)) as [IH1 IH2].
    + done.
    + intros x Hx. rewrite Hst. simpl.
      intros [Hin|Hin%elem_of_singleton]%elem_of_union.
      * apply (Hfresh x); [apply elem_of_cons; by right | done].
      * by subst.
    + by rewrite Hst.
    + rewrite Hst. simpl. lia.
    + rewrite IH1, IH2, Hst.
      change (hint_cost_total (h :: hints))
        with (hintCosts CONFIG h + hint_cost_total hints)%Z.
      pose proof (hint_cost_total_nonneg hints).
      pose proof (hintCosts_nonneg h).
      cbn [roundPoints revealed]. split; [lia|].
      simpl list_to_set. by rewrite (assoc_L (∪)).
Qed.

Lemma revealHint_total_witness :
  roundPoints (foldl revealHint (playing smoke 100)
                 [episodeNumber; image; season])
  = Z.max 0 (100 - hint_cost_total [episodeNumber; image; season])
  ∧ revealed (foldl revealHint (playing smoke 100)
                [episodeNumber; image; season])
    = revealed (playing smoke 100)
      ∪ list_to_set [episodeNumber; image; season].
Proof.
  apply (revealHint_total [episodeNumber; image; season] (playing smoke 100)).
  - compute_done.
  - intros h _. simpl. apply not_elem_of_empty.
  - reflexivity.
  - simpl. lia.
Defined.

(** ** When a guess is scored *)

Lemma submitGuess_ignored st guessInput guessSeason guessEpisode :
  guessed st = true ∨ trim guessInput = [] →
  submitGuess st guessInput guessSeason guessEpisode = Ok (st, None).
Proof.
  intros [H|H]; unfold submitGuess.
  - by rewrite H.
  - destruct (guessed st); [done|]. by rewrite decide_True.
Qed.

Lemma submitGuess_no_scene st guessInput guessSeason guessEpisode :
  guessed st = false → trim guessInput ≠ [] → scene st = None →
  submitGuess st guessInput guessSeason guessEpisode = Throw TypeError.
Proof.
  intros Hg Hne Hsc. unfold submitGuess, checkAnswer.
  by rewrite Hg, decide_False, Hsc.
Qed.

Lemma submitGuess_scored st sc guessInput guessSeason guessEpisode :
  scene st = Some sc → guessed st = false → trim guessInput ≠ [] →
  ∃ chk st' panel,
    submitGuess st guessInput guessSeason guessEpisode = Ok (st', Some panel)
    ∧ panel = showResult st' chk (bonusResult panel)
    ∧ guessed st' = true
    ∧ roundPoints st'
      = (base_points chk st
         + fst (structured_bonus (parseInt guessSeason) (Season (Episode sc))
                  (bonus_season (bonusPoints CONFIG))
                  SeasonCorrect SeasonMismatch)
         + fst (structured_bonus (parseInt guessEpisode)
                  (EpisodeNumber (Episode sc))
                  (bonus_episode (bonusPoints CONFIG))
                  EpisodeCorrect EpisodeMismatch))%Z
    ∧ totalPoints st' = (totalPoints st + roundPoints st')%Z
    ∧ roundsPlayed st' = (roundsPlayed st + 1)%Z.
Proof.
  intros Hsc Hg Hne.
  destruct (checkAnswer_returns st sc (trim guessInput) Hsc)
    as (chk & sim & Hchk & _ & _).
  destruct (submitGuess_accepted st sc guessInput guessSeason guessEpisode
              chk Hsc Hg Hne Hchk)
    as (st' & panel & Hsub & Hpanel & Hg' & _ & Hpts & _ & Htot & Hrounds).
  by exists chk, st', panel.
Qed.

(** X19. A submission is scored, and shows the result panel, exactly when
    the round is not guessed yet, the guess is not blank and a scene is in
    place. A blank guess or a guess on a finished round returns without
    touching the state; a guess before any scene has loaded throws a
    [TypeError]. *)
Theorem submitGuess_scored_iff (st : State)
    (guessInput guessSeason guessEpisode : jsstring) :
  ((∃ st' panel,
      submitGuess st guessInput guessSeason guessEpisode
      = Ok (st', Some panel))
   ↔ guessed st = false ∧ trim guessInput ≠ [] ∧ scene st ≠ None)
  ∧ (guessed st = true ∨ trim guessInput = [] →
     submitGuess st guessInput guessSeason guessEpisode = Ok (st, None))
  ∧ (guessed st = false → trim guessInput ≠ [] → scene st = None →
     submitGuess st guessInput guessSeason guessEpisode = Throw TypeError).
Proof.
  split; [|split; [apply submitGuess_ignored | apply submitGuess_no_scene]].
  split.
  - intros (st' & panel & H).
    destruct (guessed st) eqn:Hg.
    { rewrite submitGuess_ignored in H by by left. done. }
    destruct (decide (trim guessInput = [])) as [He|Hne].
    { rewrite submitGuess_ignored in H by by right. done. }
    destruct (scene st) as [sc|] eqn:Hsc; [done|].
    by rewrite submitGuess_no_scene in H.
  - intros (Hg & Hne & Hsc). destruct (scene st) as [sc|] eqn:Hsc'; [|done].
    destruct (submitGuess_scored st sc guessInput guessSeason guessEpisode
                Hsc' Hg Hne) as (chk & st' & panel & H & _).
    by exists st', panel.
Qed.

(** ** Executions: one score per round, and the session's books *)

Lemma step_guessed st ev :
  guessed st = true → is_scene_acquired ev = false →
  guessed (fst (step st ev)) = true ∧ snd (step st ev) = None.
Proof.
  intros Hg Hev. destruct ev as [lo hi|sc| |h|g s e]; simpl; try done.
  - by rewrite revealHint_noop by by right.
  - by rewrite submitGuess_ignored by by left.
Qed.

Lemma step_open st ev :
  guessed st = false → is_scene_acquired ev = false →
  (guessed (fst (step st ev)) = false ∧ snd (step st ev) = None)
  ∨ (guessed (fst (step st ev)) = true ∧ is_Some (snd (step st ev))).
Proof.
  intros Hg Hev. destruct ev as [lo hi|sc| |h|g s e]; simpl; try done;
    try by left.
  - left. by rewrite revealHint_guessed.
  - destruct (decide (trim g = [])) as [He|Hne].
    { left. by rewrite submitGuess_ignored by by right. }
    destruct (scene st) as [sc|] eqn:Hsc.
    + destruct (submitGuess_scored st sc g s e Hsc Hg Hne)
        as (chk & st' & panel & -> & _ & Hg' & _).
      right. simpl. by eauto.
    + left. by rewrite submitGuess_no_scene.
Qed.

Lemma run_guessed events st :
  guessed st = true →
  Forall (λ ev, is_scene_acquired ev = false) events →
  snd (run st events) = [].
Proof.
  revert st. induction events as [|ev events IH]; intros st Hg Hev; [done|].
  apply Forall_cons in Hev as [Hev Hevs].
  destruct (step_guessed st ev Hg Hev) as [Hg' Hnone].
  simpl. destruct (step st ev) as [st' shown]. simpl in *. subst shown.
  specialize (IH st' Hg' Hevs). destruct (run st' events). simpl in *.
  by rewrite IH.
Qed.

(** X20. A round is scored once at most: between two acquired scenes no
    sequence of clicks and submissions shows more than one result panel, and
    none at all once the round is guessed. *)
Theorem one_score_per_round (st : State) (events : list Event) :
  Forall (λ ev, is_scene_acquired ev = false) events →
  length (snd (run st events)) ≤ 1
  ∧ (guessed st = true → snd (run st events) = []).
Proof.
  intros Hev. split; [|intros Hg; by apply run_guessed].
  destruct (guessed st) eqn:Hg0.
  { rewrite run_guessed by done. simpl. lia. }
  revert st Hg0. induction events as [|ev events IH]; intros st Hg; [simpl; lia|].
  apply Forall_cons in Hev as [Hev Hevs].
  destruct (step_open st ev Hg Hev) as [[Hg' Hnone]|[Hg' [panel Hsome]]].
  - specialize (IH Hevs (fst (step st ev)) Hg'). simpl.
    destruct (step st ev) as [st' shown]. simpl in *. subst shown.
    destruct (run st' events). simpl in *. lia.
  - pose proof (run_guessed events (fst (step st ev)) Hg' Hevs) as Hrest.
    simpl. destruct (step st ev) as [st' shown]. simpl in *. subst shown.
    destruct (run st' events). simpl in *. subst. simpl. lia.
Qed.

Lemma one_score_per_round_witness :
  length (snd (run (playing smoke 100)
                 [HintClicked season;
                  GuessSubmitted (js "the crepes of wrath") (js "1") (js "11");
                  HintClicked image;
                  GuessSubmitted (js "bart the genius") (js "1") (js "2");
                  RoundRequested (js "1") (js "9")])) ≤ 1.
Proof.
  apply (one_score_per_round (playing smoke 100)
           [HintClicked season;
            GuessSubmitted (js "the crepes of wrath") (js "1") (js "11");
            HintClicked image;
            GuessSubmitted (js "bart the genius") (js "1") (js "2");
            RoundRequested (js "1") (js "9")]).
  repeat constructor.
Defined.

Lemma step_books st ev :
  roundsPlayed (fst (step st ev))
  = (roundsPlayed st + Z.of_nat (length (from_option (λ p, [p]) []
                                           (snd (step st ev)))))%Z
  ∧ totalPoints (fst (step st ev))
    = (totalPoints st + sum_scores (from_option (λ p, [p]) []
                                      (snd (step st ev))))%Z
  ∧ ∀ panel, snd (step st ev) = Some panel →
             sessionTotal panel = totalPoints (fst (step st ev))
             ∧ sessionRounds panel = roundsPlayed (fst (step st ev))
             ∧ roundScoreResult panel = roundPoints (fst (step st ev)).
Proof.
  destruct ev as [lo hi|sc| |h|g s e]; simpl;
    try (repeat split; try done; lia).
  - unfold revealHint. destruct (_ || _); simpl; repeat split; try done; lia.
  - destruct (guessed st) eqn:Hg.
    { rewrite submitGuess_ignored by by left. simpl.
      repeat split; try done; lia. }
    destruct (decide (trim g = [])) as [He|Hne].
    { rewrite submitGuess_ignored by by right. simpl.
      repeat split; try done; lia. }
    destruct (scene st) as [sc|] eqn:Hsc.
    + destruct (submitGuess_scored st sc g s e Hsc Hg Hne)
        as (chk & st' & panel & -> & Hpanel & _ & _ & Htot & Hrounds).
      assert (roundScoreResult panel = roundPoints st'
              ∧ sessionTotal panel = totalPoints st'
              ∧ sessionRounds panel = roundsPlayed st') as (P1 & P2 & P3)
        by (by rewrite Hpanel).
      simpl. split; [lia|]. split; [lia|]. by intros ? [= <-].
    + rewrite submitGuess_no_scene by done. simpl.
      repeat split; try done; lia.
Qed.

Lemma sum_scores_app ps qs :
  sum_scores (ps ++ qs) = (sum_scores ps + sum_scores qs)%Z.
Proof.
  induction ps as [|p ps IH]; [done|].
  change (sum_scores ((p :: ps) ++ qs))
    with (roundScoreResult p + sum_scores (ps ++ qs))%Z.
  change (sum_scores (p :: ps)) with (roundScoreResult p + sum_scores ps)%Z.
  lia.
Qed.

Lemma run_books events st :
  roundsPlayed (fst (run st events))
  = (roundsPlayed st + Z.of_nat (length (snd (run st events))))%Z
  ∧ totalPoints (fst (run st events))
    = (totalPoints st + sum_scores (snd (run st events)))%Z.
Proof.
  revert st. induction events as [|ev events IH]; intros st.
  - simpl. split; lia.
  - destruct (step_books st ev) as (H1 & H2 & _). simpl.
    destruct (step st ev) as [st' shown]. simpl in *.
    destruct (IH st') as [IH1 IH2].
    destruct (run st' events) as [final panels]. simpl in *.
    rewrite length_app, sum_scores_app. split; lia.
Qed.

(** X21. The session's books balance in every execution: the number of
    rounds played is the number of result panels shown, and the session
    total is the sum of the round scores shown on them. *)
Theorem session_books_balance (events : list Event) :
  roundsPlayed (fst (run initial_state events))
  = Z.of_nat (length (snd (run initial_state events)))
  ∧ totalPoints (fst (run initial_state events))
    = sum_scores (snd (run initial_state events)).
Proof.
  destruct (run_books events initial_state) as [H1 H2].
  simpl in H1, H2. split; lia.
Qed.

Lemma structured_bonus_range g actual bonus hit miss :
  (0 ≤ bonus)%Z →
  (0 ≤ fst (structured_bonus g actual bonus hit miss) ≤ bonus)%Z.
Proof.
  intros Hb. unfold structured_bonus. destruct g as [v|]; [|simpl; lia].
  destruct (truthy (Some v)); simpl; [|lia].
  destruct (v =? actual)%Z; simpl; lia.
Qed.

Lemma bounds_unchanged st :
  points_in_bounds st →
  points_in_bounds st
  ∧ (totalPoints st ≤ totalPoints st)%Z
  ∧ ∀ panel, @None ResultPanel = Some panel →
             (0 ≤ roundScoreResult panel ≤ max_round_points)%Z.
Proof. intros H. split; [done|]. split; [lia|done]. Qed.

Lemma step_bounds st ev :
  points_in_bounds st →
  points_in_bounds (fst (step st ev))
  ∧ (totalPoints st ≤ totalPoints (fst (step st ev)))%Z
  ∧ ∀ panel, snd (step st ev) = Some panel →
             (0 ≤ roundScoreResult panel ≤ max_round_points)%Z.
Proof.
  intros Hst. destruct ev as [lo hi|sc| |h|g s e]; simpl.
  - split; [apply Hst|]. split; [simpl; lia|done].
  - unfold points_in_bounds, max_round_points in *. simpl in *.
    destruct Hst as (Hrp & Hopen & Htot & Hrounds).
    split; [|split; [lia|done]]. repeat split; lia.
  - by apply bounds_unchanged.
  - unfold revealHint. destruct (_ || _) eqn:E; [by apply bounds_unchanged|].
    unfold points_in_bounds, max_round_points in *. simpl in *.
    destruct Hst as (Hrp & Hopen & Htot & Hrounds).
    split; [|split; [lia|done]]. split; [destruct h; lia|].
    split; [|lia]. intros Hg. specialize (Hopen Hg). destruct h; lia.
  - destruct (guessed st) eqn:Hg.
    { rewrite submitGuess_ignored by by left. by apply bounds_unchanged. }
    destruct (decide (trim g = [])) as [He|Hne].
    { rewrite submitGuess_ignored by by right. by apply bounds_unchanged. }
    destruct (scene st) as [sc|] eqn:Hsc.
    + destruct (submitGuess_scored st sc g s e Hsc Hg Hne)
        as (chk & st' & panel & -> & Hpanel & Hg' & Hpts & Htot' & Hrounds').
      pose proof (structured_bonus_range (parseInt s) (Season (Episode sc))
                    (bonus_season (bonusPoints CONFIG))
                    SeasonCorrect SeasonMismatch ltac:(simpl; lia)) as Hs.
      pose proof (structured_bonus_range (parseInt e)
                    (EpisodeNumber (Episode sc))
                    (bonus_episode (bonusPoints CONFIG))
                    EpisodeCorrect EpisodeMismatch ltac:(simpl; lia)) as He.
      unfold points_in_bounds, max_round_points in *. simpl in *.
      destruct Hst as (Hrp & Hopen & Htot & Hrounds).
      specialize (Hopen Hg).
      assert (0 ≤ base_points chk st ≤ 100)%Z as Hbase
        by (unfold base_points; destruct (correct chk); lia).
      assert (roundScoreResult panel = roundPoints st') as Hscore
        by (by rewrite Hpanel).
      split; [|split; [lia|]].
      * split; [lia|]. split; [by rewrite Hg'|]. lia.
      * intros ? [= <-]. lia.
    + rewrite submitGuess_no_scene by done. by apply bounds_unchanged.
Qed.

Lemma run_app st events more :
  fst (run st (events ++ more)) = fst (run (fst (run st events)) more).
Proof.
  revert st. induction events as [|ev events IH]; intros st; [done|].
  simpl. destruct (step st ev) as [st' shown]. specialize (IH st').
  destruct (run st' (events ++ more)), (run st' events). simpl in *.
  by rewrite IH.
Qed.

Lemma run_bounds events st :
  points_in_bounds st →
  points_in_bounds (fst (run st events))
  ∧ (totalPoints st ≤ totalPoints (fst (run st events)))%Z
  ∧ Forall (λ panel, (0 ≤ roundScoreResult panel ≤ max_round_points)%Z)
      (snd (run st events)).
Proof.
  revert st. induction events as [|ev events IH]; intros st Hst.
  - simpl. split; [done|]. split; [lia|constructor].
  - destruct (step_bounds st ev Hst) as (H1 & H2 & H3). simpl.
    destruct (step st ev) as [st' shown]. simpl in *.
    destruct (IH st' H1) as (I1 & I2 & I3).
    destruct (run st' events) as [final panels]. simpl in *.
    split; [done|]. split; [lia|]. apply Forall_app. split; [|done].
    destruct shown as [panel|]; simpl; [|constructor].
    constructor; [by apply H3 | constructor].
Qed.

(** X22. In every execution the points stay in their bounds: a round holds
    between 0 and 100 points until it is guessed and is worth between 0 and
    175 (the starting points and both bonuses) once scored, every round
    score shown lies between 0 and 175, and the session total never goes
    down as the execution goes on. *)
Theorem points_stay_in_bounds (events more : list Event) :
  max_round_points = 175%Z
  ∧ points_in_bounds (fst (run initial_state events))
  ∧ Forall (λ panel, (0 ≤ roundScoreResult panel ≤ max_round_points)%Z)
      (snd (run initial_state events))
  ∧ (totalPoints (fst (run initial_state events))
     ≤ totalPoints (fst (run initial_state (events ++ more))))%Z.
Proof.
  assert (points_in_bounds initial_state) as H0.
  { unfold points_in_bounds, max_round_points. simpl. lia. }
  destruct (run_bounds events initial_state H0) as (H1 & _ & H3).
  split; [done|]. split; [done|]. split; [done|].
  rewrite run_app. by apply run_bounds.
Qed.

(** ** Autocomplete *)

Example autocomplete_bart :
  autocomplete_input toLowerCase sample_episodes (js "1") (js "9")
    (js " BART ")
  = Some [ {| ep_season := 1; ep_title := js "Bart the Genius" |};
           {| ep_season := 2; ep_title := js "Bart Gets an F" |} ].
Proof. vm_compute. reflexivity. Qed.

(** A title and a text beyond Latin-1: the lower-case letter typed finds the
    title that starts with its capital. *)
Example autocomplete_caron :
  autocomplete_input lower_caron
    [ {| ep_season := 1; ep_title := 352%N :: js "koda" |} ]
    (js "1") (js "9") [353%N]
  = Some [ {| ep_season := 1; ep_title := 352%N :: js "koda" |} ].
Proof. vm_compute. reflexivity. Qed.

Lemma has_prefix_spec s prefix :
  has_prefix s prefix = true ↔ ∃ after, s = prefix ++ after.
Proof.
  revert s. induction prefix as [|p prefix IH]; intros [|c s]; simpl.
  - split; [eauto|done].
  - split; [eauto|done].
  - split; [done|]. by intros [after [=]].
  - rewrite andb_true_iff, N.eqb_eq, IH. split.
    + intros [-> [after ->]]. by exists after.
    + intros [after [= -> ->]]. eauto.
Qed.

Lemma includes_spec s search : includes s search = true ↔ occurs_in search s.
Proof.
  unfold occurs_in. induction s as [|c s IH].
  - change (includes [] search) with (has_prefix [] search || false).
    rewrite orb_false_r, has_prefix_spec. split.
    + intros [after H]. by exists [], after.
    + intros (before & after & H).
      destruct before; [by exists after|done].
  - change (includes (c :: s) search)
      with (has_prefix (c :: s) search || includes s search).
    rewrite orb_true_iff, IH, has_prefix_spec. split.
    + intros [[after H]|(before & after & H)].
      * by exists [], after.
      * exists (c :: before), after. by rewrite H.
    + intros (before & after & H). destruct before as [|b before].
      * left. by exists after.
      * right. injection H as -> ->. by exists before, after.
Qed.

(** X23. The episodes offered for completion are exactly the loaded episodes
    whose season lies inside the range read from the settings, in the order
    of the list, and their seasons always lie within 1..20. *)
Theorem getFilteredEpisodes_spec (episodes : list EpisodeEntry)
    (seasonMin seasonMax : jsstring) :
  (∀ ep, ep ∈ getFilteredEpisodes episodes seasonMin seasonMax
         ↔ ep ∈ episodes
           ∧ in_season_range (getSeasonRange seasonMin seasonMax) ep)
  ∧ getFilteredEpisodes episodes seasonMin seasonMax `sublist_of` episodes
  ∧ Forall (λ ep, 1 ≤ ep_season ep ≤ 20)%Z
      (getFilteredEpisodes episodes seasonMin seasonMax).
Proof.
  unfold getFilteredEpisodes. split; [|split].
  - intros ep. rewrite list_elem_of_filter. tauto.
  - apply sublist_filter.
  - apply Forall_forall. intros ep [Hin _]%list_elem_of_filter.
    destruct (getSeasonRange_clamps seasonMin seasonMax) as [Hlo Hhi].
    unfold in_season_range in Hin. lia.
Qed.

Lemma take_sublist {A : Type} n (l : list A) : take n l `sublist_of` l.
Proof.
  rewrite <-(take_drop n l) at 2. by apply sublist_inserts_r.
Qed.

(** X24. Typing in the guess field, whatever [toLowerCase] makes of the
    text and of the titles: a text that is blank once lower-cased and
    trimmed hides the suggestions; otherwise the list shows the first 8, in
    list order, of the in-range episodes whose lower-cased title contains
    the lower-cased, trimmed text, and hides when there is none. With fewer
    than 8 suggestions on show, no matching in-range episode is left out. *)
Theorem autocomplete_input_spec (lower : jsstring → jsstring)
    (episodes : list EpisodeEntry)
    (seasonMin seasonMax guessInput : jsstring) :
  match autocomplete_input lower episodes seasonMin seasonMax guessInput with
  | Some matches =>
      trim (lower guessInput) ≠ []
      ∧ 1 ≤ length matches ≤ 8
      ∧ matches `sublist_of` episodes
      ∧ Forall (λ ep,
          in_season_range (getSeasonRange seasonMin seasonMax) ep
          ∧ occurs_in (trim (lower guessInput)) (lower (ep_title ep)))
          matches
      ∧ (length matches < 8 →
         ∀ ep, ep ∈ episodes →
               in_season_range (getSeasonRange seasonMin seasonMax) ep →
               occurs_in (trim (lower guessInput)) (lower (ep_title ep)) →
               ep ∈ matches)
  | None =>
      trim (lower guessInput) = []
      ∨ ∀ ep, ep ∈ episodes →
              in_season_range (getSeasonRange seasonMin seasonMax) ep →
              ¬ occurs_in (trim (lower guessInput)) (lower (ep_title ep))
  end.
Proof.
  unfold autocomplete_input.
  set (value := trim (lower guessInput)).
  set (found := filter (title_matches lower value)
                  (getFilteredEpisodes episodes seasonMin seasonMax)).
  assert (∀ ep, ep ∈ found
                ↔ ep ∈ episodes
                  ∧ in_season_range (getSeasonRange seasonMin seasonMax) ep
                  ∧ occurs_in value (lower (ep_title ep))) as Hfound.
  { intros ep. unfold found, getFilteredEpisodes, title_matches.
    rewrite !list_elem_of_filter, includes_spec. tauto. }
  destruct (length value <? 1) eqn:Hlen.
  { left. apply Nat.ltb_lt in Hlen. destruct value; [done|simpl in Hlen; lia]. }
  apply Nat.ltb_ge in Hlen.
  destruct (take 8 found) as [|m ms] eqn:Htake.
  - right. intros ep Hin Hrange Hocc.
    assert (ep ∈ found) as Hep by (by apply Hfound).
    destruct found as [|f found']; [by apply elem_of_nil in Hep|done].
  - rewrite <-Htake. split; [destruct value; [simpl in Hlen; lia|done]|].
    split.
    { rewrite length_take. split; [|lia].
      apply (f_equal length) in Htake. rewrite length_take in Htake.
      cbn [length] in Htake. lia. }
    split.
    { etransitivity; [apply take_sublist|].
      etransitivity; [apply sublist_filter|]. apply sublist_filter. }
    split.
    { apply Forall_forall. intros ep Hep.
      assert (ep ∈ found) as Hep'.
      { eapply elem_of_sublist; [done|apply take_sublist]. }
      apply Hfound in Hep'. tauto. }
    intros Hshort ep Hin Hrange Hocc.
    rewrite length_take in Hshort. rewrite take_ge by lia.
    by apply Hfound.
Qed.

(** ** The page and the state agree *)

Example getImageUrl_smoke :
  getImageUrl smoke = js "https://frinkiac.com/img/S01E11/335897.jpg".
Proof. vm_compute. reflexivity. Qed.

Lemma revealHint_noop_iff st h :
  revealHint st h = st ↔ h ∈ revealed st ∨ guessed st = true.
Proof.
  split; [|apply revealHint_noop]. intros H.
  destruct (guessed st) eqn:Hg; [by right|]. left.
  destruct (decide (h ∈ revealed st)) as [|Hout]; [done|].
  rewrite revealHint_fresh in H by done.
  apply (f_equal revealed) in H. simpl in H. rewrite <-H.
  apply elem_of_union. right. by apply elem_of_singleton.
Qed.

Lemma render_hint st sc page h :
  scene st = Some sc →
  hint_disabled (render st page) h
  = (if guessed st then true else bool_decide (h ∈ revealed st))
  ∧ hint_shown (render st page) h = bool_decide (h ∈ revealed st)
  ∧ hint_content (render st page) h
    = (if bool_decide (h ∈ revealed st) then hint_of_scene sc h
       else hint_content page h)
  ∧ quoteText (render st page) = getQuoteText sc.
Proof. intros Hsc. unfold render. rewrite Hsc. by destruct h. Qed.

(** X25. Once a scene is in place the rendered page agrees with the state,
    hint by hint: a hint's button is disabled exactly when clicking it
    would change nothing, its container is displayed exactly when the hint
    is revealed and then holds the scene's own value, and the content of a
    hint that is not revealed is left as it was. *)
Theorem render_agrees (st : State) (sc : Scene) (page : Page) (h : HintType) :
  scene st = Some sc →
  (hint_disabled (render st page) h = true ↔ revealHint st h = st)
  ∧ (hint_shown (render st page) h = true ↔ h ∈ revealed st)
  ∧ (h ∈ revealed st → hint_content (render st page) h = hint_of_scene sc h)
  ∧ (h ∉ revealed st →
     hint_content (render st page) h = hint_content page h)
  ∧ quoteText (render st page) = getQuoteText sc.
Proof.
  intros Hsc.
  destruct (render_hint st sc page h Hsc) as (-> & -> & -> & ->).
  rewrite revealHint_noop_iff, !bool_decide_eq_true.
  split; [|split; [done|split; [|split; [|done]]]].
  - destruct (guessed st).
    + split; auto.
    + rewrite bool_decide_eq_true. split; [auto|]. by intros [|].
  - intros Hin. by rewrite bool_decide_eq_true_2.
  - intros Hout. by rewrite bool_decide_eq_false_2.
Qed.

Lemma render_agrees_witness :
  (hint_disabled (render (revealHint (playing smoke 100) season) blank_page)
     season = true
   ↔ revealHint (revealHint (playing smoke 100) season) season
     = revealHint (playing smoke 100) season)
  ∧ (hint_shown (render (revealHint (playing smoke 100) season) blank_page)
       season = true
     ↔ season ∈ revealed (revealHint (playing smoke 100) season))
  ∧ (season ∈ revealed (revealHint (playing smoke 100) season) →
     hint_content (render (revealHint (playing smoke 100) season) blank_page)
       season = hint_of_scene smoke season)
  ∧ (season ∉ revealed (revealHint (playing smoke 100) season) →
     hint_content (render (revealHint (playing smoke 100) season) blank_page)
       season = hint_content blank_page season)
  ∧ quoteText (render (revealHint (playing smoke 100) season) blank_page)
    = getQuoteText smoke.
Proof.
  apply (render_agrees (revealHint (playing smoke 100) season) smoke
           blank_page season).
  reflexivity.
Defined.

(** ** What the result panels report *)

Lemma run_panels events st k panel :
  snd (run st events) !! k = Some panel →
  sessionRounds panel = (roundsPlayed st + Z.of_nat (S k))%Z
  ∧ sessionTotal panel
    = (totalPoints st + sum_scores (take (S k) (snd (run st events))))%Z.
Proof.
  revert st k. induction events as [|ev events IH]; intros st k; [done|].
  destruct (step_books st ev) as (H1 & H2 & H3). simpl.
  destruct (step st ev) as [st' shown]. simpl in *.
  specialize (IH st'). destruct (run st' events) as [final panels].
  simpl in *. destruct shown as [p|]; simpl in *.
  - destruct (H3 p eq_refl) as (P1 & P2 & _).
    unfold sum_scores in H2. simpl in H2. destruct k as [|k]; simpl.
    + intros [= <-]. unfold sum_scores. simpl. split; lia.
    + intros Hk. destruct (IH k Hk) as [I1 I2].
      change (sum_scores (p :: take (S k) panels))
        with (roundScoreResult p + sum_scores (take (S k) panels))%Z.
      split; lia.
  - intros Hk. destruct (IH k Hk) as [I1 I2]. unfold sum_scores in H2.
    simpl in H2. split; lia.
Qed.

(** X26. The result panels count the session as it goes: the panel shown
    for the k-th scored round reports k rounds played and, as session total,
    the sum of the round scores shown up to and including its own. *)
Theorem panels_running_totals (events : list Event) (k : nat)
    (panel : ResultPanel) :
  snd (run initial_state events) !! k = Some panel →
  sessionRounds panel = Z.of_nat (S k)
  ∧ sessionTotal panel
    = sum_scores (take (S k) (snd (run initial_state events))).
Proof.
  intros Hk. destruct (run_panels events initial_state k panel Hk) as [H1 H2].
  simpl in H1, H2. split; lia.
Qed.

Lemma panels_running_totals_witness :
  ∃ panel,
    snd (run initial_state
           [SceneAcquired smoke;
            GuessSubmitted (js "the crepes of wrath") (js "1") (js "");
            SceneAcquired smoke; HintClicked image;
            GuessSubmitted (js "bart the genius") (js "") (js "11")]) !! 1
    = Some panel
    ∧ sessionRounds panel = 2%Z ∧ sessionTotal panel = 175%Z.
Proof.
  eexists. split; [vm_compute; reflexivity|].
  match goal with |- sessionRounds ?p = _ ∧ _ =>
    destruct (panels_running_totals
                [SceneAcquired smoke;
                 GuessSubmitted (js "the crepes of wrath") (js "1") (js "");
                 SceneAcquired smoke; HintClicked image;
                 GuessSubmitted (js "bart the genius") (js "") (js "11")]
                1 p) as [H1 H2]
  end.
  - vm_compute. reflexivity.
  - split; [exact H1|]. rewrite H2. vm_compute. reflexivity.
Defined.
